(** * youtube_clipper_app: the segment detection and fusion pipeline

    A shallow embedding of the TypeScript sources

    - [src/lib/youtube/captionScraper.server.ts]  (class [CaptionScraper]),
    - [src/lib/ai/captionAnalyzer.ts]             (classes [CaptionAnalyzer]
                                                   and [ViralContentDetector]),
    - [src/lib/youtube/fetcher.ts]                (class [EnhancedViralDetector]),

    followed by the properties of the pipeline stated over it.

    Conventions of the embedding.

    - A JavaScript [number] is an exact rational ([Q]): every value is finite
      and arithmetic does not round.  [NaN] occurs only as the failure value
      of [parseFloat], where it is [None].  Equalities between computed
      numbers are therefore stated with [==] ([Qeq]).
    - An array is a [list]; [push] appends at the end; [for ... of] is a left
      fold over the array; [Array.prototype.sort] is the stable sort by the
      comparator.
    - Code that may throw lives in the [completion] monad; [try ... catch]
      is [try_catch]. *)

From Stdlib Require Import String Ascii.
From Stdlib Require Import QArith Qabs Qminmax Bool List Arith Lia Lqa.
From Stdlib Require Import Permutation Sorted.
From Equations Require Import Equations.
Import ListNotations.

Set Warnings "-register-all".

Local Open Scope Q_scope.
Local Open Scope string_scope.
Local Open Scope list_scope.

(* ===================================================================== *)
(** * Part I: the embedding *)
(* ===================================================================== *)

(** ** JavaScript numbers and their comparisons *)

Module JSNumber.

(** [x < y] *)
Definition ltb (x y : Q) : bool := negb (Qle_bool y x).
(** [x > y] *)
Definition gtb (x y : Q) : bool := ltb y x.
(** [x <= y] *)
Definition leb (x y : Q) : bool := Qle_bool x y.
(** [x >= y] *)
Definition geb (x y : Q) : bool := Qle_bool y x.

(** A loop index or an array length used as a number. *)
Definition ofNat (n : nat) : Q := inject_Z (Z.of_nat n).

(** [x || fallback] on a number that may be missing: [undefined] and [0]
    are falsy. *)
Definition orDefault (x : option Q) (fallback : Q) : Q :=
  match x with
  | Some q => if Qeq_bool q 0 then fallback else q
  | None => fallback
  end.

End JSNumber.

(** ** Arrays: the stable sort behind [Array.prototype.sort] *)

Module JSArray.

Section Sort.
Context {A : Type}.
(** The comparator [(a, b) => number]: a negative or zero result keeps [a]
    before [b], a positive one moves [b] in front. *)
Variable compareFn : A -> A -> Q.

Fixpoint insert (x : A) (l : list A) : list A :=
  match l with
  | [] => [x]
  | y :: ys =>
      if Qle_bool (compareFn x y) 0 then x :: y :: ys
      else y :: insert x ys
  end.

(** [arr.sort(compareFn)]: elements that compare equal keep their relative
    order. *)
Fixpoint sort (l : list A) : list A :=
  match l with
  | [] => []
  | x :: xs => insert x (sort xs)
  end.
End Sort.

(** The comparator [(a, b) => key(b) - key(a)]: descending by [key]. *)
Definition descending {A : Type} (key : A -> Q) (a b : A) : Q := key b - key a.

(** [arr.slice(from, to)] for [0 <= from <= to]. *)
Definition slice {A : Type} (from to : nat) (l : list A) : list A :=
  firstn (to - from) (skipn from l).

(** [arr.map((x, k) => f(offset + k, x))]: a map that also sees the position. *)
Fixpoint mapFrom {A B : Type} (f : nat -> A -> B) (offset : nat) (l : list A) : list B :=
  match l with
  | [] => []
  | x :: xs => f offset x :: mapFrom f (S offset) xs
  end.

End JSArray.

(** ** Exceptions *)

Inductive exception : Type :=
| Error (message : string)       (* [throw new Error(message)] *)
| TypeError                      (* a property read on [null] or [undefined] *)
| SyntaxError                    (* [JSON.parse] on text that is not JSON *)
| Rejected (reason : string).    (* a collaborator's promise was rejected *)

Inductive completion (A : Type) : Type :=
| Normal (a : A)
| Throw (e : exception).
Arguments Normal {A} a.
Arguments Throw {A} e.

Definition bind {A B} (c : completion A) (k : A -> completion B) : completion B :=
  match c with
  | Normal a => k a
  | Throw e => Throw e
  end.

Definition try_catch {A} (body : completion A) (handler : exception -> completion A)
  : completion A :=
  match body with
  | Normal a => Normal a
  | Throw e => handler e
  end.

Notation "x <- c ;; k" := (bind c (fun x => k))
  (at level 61, c at next level, right associativity).

(** [await Promise.all(promises)]: the values in order, or the first
    rejection. *)
Fixpoint promiseAll {A} (promises : list (completion A)) : completion (list A) :=
  match promises with
  | [] => Normal []
  | p :: ps => a <- p ;; rest <- promiseAll ps ;; Normal (a :: rest)
  end.

Definition returns {A} (c : completion A) : Prop := exists a, c = Normal a.
Definition throws {A} (c : completion A) : Prop := exists e, c = Throw e.

(** ** [interface Caption] and [CaptionScraper.groupCaptionsIntoSegments] *)

Module Caption.
Record t : Type := mk {
  start : Q;
  duration : Q;
  text : string
}.
End Caption.
Abbreviation Caption := Caption.t.

Module CaptionScraper.

(** One iteration of [for (const caption of captions)] over the state
    [(segments, currentSegment)]. *)
Definition groupStep (segmentDuration : Q)
           (st : list Caption * Caption) (caption : Caption)
  : list Caption * Caption :=
  let '(segments, currentSegment) := st in
  if JSNumber.gtb (Caption.duration currentSegment) 0
     && JSNumber.gtb (Caption.duration currentSegment + Caption.duration caption)
                     segmentDuration
  then
    (segments ++ [currentSegment],
     {| Caption.start := Caption.start caption;
        Caption.duration := Caption.duration caption;
        Caption.text := Caption.text caption |})
  else
    (segments,
     {| Caption.start := Caption.start currentSegment;
        Caption.duration := Caption.duration currentSegment + Caption.duration caption;
        Caption.text := (Caption.text currentSegment ++ " " ++ Caption.text caption)%string |}).

Definition groupCaptionsIntoSegments
           (captions : list Caption) (segmentDuration : Q) : list Caption :=
  match captions with
  | [] => []
  | first :: _ =>
      let '(segments, currentSegment) :=
        fold_left (groupStep segmentDuration) captions
                  ([], {| Caption.start := Caption.start first;
                          Caption.duration := 0;
                          Caption.text := "" |}) in
      if JSNumber.gtb (Caption.duration currentSegment) 0
      then segments ++ [currentSegment]
      else segments
  end.


End CaptionScraper.

(** ** [interface Segment], [DetectionOptions] and [ViralContentDetector] *)

Module Segment.
Inductive kind : Type := speech | music | silence | noise.

Record t : Type := mk {
  start : Q;
  end_ : Q;
  score : Q;
  type_ : kind
}.

Definition kind_eqb (a b : kind) : bool :=
  match a, b with
  | speech, speech | music, music | silence, silence | noise, noise => true
  | _, _ => false
  end.
End Segment.
Abbreviation Segment := Segment.t.

Module DetectionOptions.
Record t : Type := mk {
  minSegmentDuration : Q;
  maxSegmentDuration : Q;
  energyThreshold : Q;
  speechRateThreshold : Q
}.

(** [Partial<DetectionOptions>]: every field may be absent. *)
Record partial : Type := mkPartial {
  minSegmentDuration' : option Q;
  maxSegmentDuration' : option Q;
  energyThreshold' : option Q;
  speechRateThreshold' : option Q
}.
End DetectionOptions.
Abbreviation DetectionOptions := DetectionOptions.t.

Module ViralContentDetector.

(** What the detector's collaborators answer for one [videoPath]: the file
    system, the two ffmpeg calls, the random draws of [analyzeEnergyLevels]
    and the final clean-up. *)
Record Media : Type := mkMedia {
  existsSync : bool;                       (* [fs.existsSync(videoPath)] *)
  extractAudio : completion string;        (* the extracted [audioPath] *)
  ffprobeDuration : completion (option Q); (* [metadata.format.duration] *)
  analyzeEnergyLevels : list Q;            (* the [Math.random()] samples *)
  removeAudio : completion unit            (* [existsSync] and [unlinkSync] of [audioPath] *)
}.

(** [constructor(options: Partial<DetectionOptions> = {})] *)
Definition constructor (options : DetectionOptions.partial) : DetectionOptions :=
  {| DetectionOptions.minSegmentDuration :=
       JSNumber.orDefault (DetectionOptions.minSegmentDuration' options) 5;
     DetectionOptions.maxSegmentDuration :=
       JSNumber.orDefault (DetectionOptions.maxSegmentDuration' options) 60;
     DetectionOptions.energyThreshold :=
       JSNumber.orDefault (DetectionOptions.energyThreshold' options) (6 # 10);
     DetectionOptions.speechRateThreshold :=
       JSNumber.orDefault (DetectionOptions.speechRateThreshold' options) (7 # 10) |}.

(** [getAudioDuration]: [resolve(metadata.format.duration || 0)], or the
    rejection of [ffprobe]. *)
Definition getAudioDuration (media : Media) : completion Q :=
  metadata <- ffprobeDuration media ;;
  Normal (JSNumber.orDefault metadata 0).

(** An open candidate, [currentSegment: Partial<Segment>] with only [start]
    and [type] set. *)
Record OpenSegment : Type := mkOpen {
  openStart : Q;
  openType : Segment.kind
}.

(** The duration test shared by both places that close a candidate. *)
Definition withinDuration (options : DetectionOptions) (duration : Q) : bool :=
  JSNumber.geb duration (DetectionOptions.minSegmentDuration options)
  && JSNumber.leb duration (DetectionOptions.maxSegmentDuration options).

(** Closing [currentSegment] at [endTime]: [end] and [score = 0] are set and
    the candidate is pushed when its duration is within the constraints. *)
Definition closeSegment (options : DetectionOptions)
           (segments : list Segment) (currentSegment : OpenSegment) (endTime : Q)
  : list Segment :=
  let duration := endTime - openStart currentSegment in
  if withinDuration options duration
  then segments ++ [ {| Segment.start := openStart currentSegment;
                        Segment.end_ := endTime;
                        Segment.score := 0;
                        Segment.type_ := openType currentSegment |} ]
  else segments.

(** The body of [for (let i = 0; i < energyLevels.length; i++)], run over
    the samples that remain from index [i] on; [n] is [energyLevels.length]. *)
Fixpoint analyzeLoop (options : DetectionOptions) (n : nat) (audioDuration : Q)
         (i : nat) (energyLevels : list Q)
         (segments : list Segment) (currentSegment : option OpenSegment)
  : list Segment * option OpenSegment :=
  match energyLevels with
  | [] => (segments, currentSegment)
  | energy :: rest =>
      let timePoint := (JSNumber.ofNat i / JSNumber.ofNat n) * audioDuration in
      if JSNumber.gtb energy (DetectionOptions.energyThreshold options) then
        match currentSegment with
        | None =>
            analyzeLoop options n audioDuration (S i) rest segments
                        (Some {| openStart := timePoint; openType := Segment.speech |})
        | Some _ =>
            analyzeLoop options n audioDuration (S i) rest segments currentSegment
        end
      else
        match currentSegment with
        | Some current =>
            analyzeLoop options n audioDuration (S i) rest
                        (closeSegment options segments current timePoint) None
        | None =>
            analyzeLoop options n audioDuration (S i) rest segments currentSegment
        end
  end.

(** The candidates [analyzeAudio] builds from a duration and its samples. *)
Definition segmentsOfEnergy (options : DetectionOptions)
           (audioDuration : Q) (energyLevels : list Q) : list Segment :=
  let '(segments, currentSegment) :=
    analyzeLoop options (length energyLevels) audioDuration 0 energyLevels [] None in
  match currentSegment with
  | Some current => closeSegment options segments current audioDuration
  | None => segments
  end.

Definition analyzeAudio (options : DetectionOptions) (media : Media)
  : completion (list Segment) :=
  audioDuration <- getAudioDuration media ;;
  Normal (segmentsOfEnergy options audioDuration (analyzeEnergyLevels media)).

(** When both bounds equal the optimal duration, [maxDistance] is 0; the
    quotient is then 0 here, where JavaScript answers [NaN] or an infinity.
    Only the order of the scored array depends on this value. *)
Definition calculateDurationScore (options : DetectionOptions) (duration : Q) : Q :=
  let optimalDuration := 15 in
  let distanceFromOptimal := Qabs (duration - optimalDuration) in
  let maxDistance :=
    Qmax (optimalDuration - DetectionOptions.minSegmentDuration options)
         (DetectionOptions.maxSegmentDuration options - optimalDuration) in
  1 - (distanceFromOptimal / maxDistance).

(** The object [{...segment, score: combinedScore}] that [scoreSegments]
    maps each candidate to. *)
Definition scoreSegment (options : DetectionOptions) (segment : Segment) : Segment :=
  let duration := Segment.end_ segment - Segment.start segment in
  let durationScore := calculateDurationScore options duration in
  let typeScore :=
    if Segment.kind_eqb (Segment.type_ segment) Segment.speech
    then 8 # 10 else 4 # 10 in
  let combinedScore := (durationScore + typeScore) / 2 in
  {| Segment.start := Segment.start segment;
     Segment.end_ := Segment.end_ segment;
     Segment.score := combinedScore;
     Segment.type_ := Segment.type_ segment |}.

Definition scoreSegments (options : DetectionOptions) (segments : list Segment)
  : list Segment :=
  JSArray.sort (JSArray.descending Segment.score) (map (scoreSegment options) segments).

Definition detectViralSegments (options : DetectionOptions) (media : Media)
  : completion (list Segment) :=
  try_catch
    (_ <- (if negb (existsSync media)
           then Throw (Error "Video file not found")
           else Normal tt) ;;
     _ <- extractAudio media ;;
     segments <- analyzeAudio options media ;;
     let scoredSegments := scoreSegments options segments in
     _ <- removeAudio media ;;
     Normal scoredSegments)
    (fun _ => Normal []).

Definition getTopSegments (segments : list Segment) (count : nat) : list Segment :=
  firstn count segments.

End ViralContentDetector.

(** ** JavaScript values as the scorer's responses carry them *)

Inductive jsval : Type :=
| JUndefined
| JNull
| JBool (b : bool)
| JNum (n : Q)
| JStr (s : string)
| JArr (elements : list jsval)
| JObj (fields : list (string * jsval)).

Module JSValue.


(** Truthiness, as [||] tests it. *)
Definition truthy (v : jsval) : bool :=
  match v with
  | JUndefined | JNull => false
  | JBool b => b
  | JNum n => negb (Qeq_bool n 0)
  | JStr s => negb (String.eqb s "")
  | JArr _ | JObj _ => true
  end.

Fixpoint lookup (key : string) (fields : list (string * jsval)) : jsval :=
  match fields with
  | [] => JUndefined
  | (k, v) :: rest => if String.eqb k key then v else lookup key rest
  end.

(** [v.key] for the property names the sources read ([data], [choices],
    [message], [content], [score], [reasons], [emotions], [keywords],
    [summary]): a [TypeError] on [undefined] and [null], the field of an
    object, and [undefined] on every other value, none of which has such a
    property. *)
Definition get (v : jsval) (key : string) : completion jsval :=
  match v with
  | JUndefined | JNull => Throw TypeError
  | JObj fields => Normal (lookup key fields)
  | JBool _ | JNum _ | JStr _ | JArr _ => Normal JUndefined
  end.

(** [v[0]] *)
Definition get0 (v : jsval) : completion jsval :=
  match v with
  | JUndefined | JNull => Throw TypeError
  | JObj fields => Normal (lookup "0" fields)
  | JArr [] => Normal JUndefined
  | JArr (x :: _) => Normal x
  | JStr EmptyString => Normal JUndefined
  | JStr (String c _) => Normal (JStr (String c EmptyString))
  | JBool _ | JNum _ => Normal JUndefined
  end.

Section Builtins.
(** The built-in [parseFloat] on a string is taken as given ([None] when it
    answers [NaN]). *)
Variable parseFloatString : string -> option Q.

(** [parseFloat(v)]: the argument is first converted to a string.  A number
    prints to a string that parses back to itself; an array prints its
    elements separated by commas, so only its first element can contribute
    a numeric prefix; [undefined], [null], booleans and objects print to
    text with no numeric prefix. *)
Fixpoint parseFloat (v : jsval) : option Q :=
  match v with
  | JNum n => Some n
  | JStr s => parseFloatString s
  | JArr (x :: _) => parseFloat x
  | JArr [] => None
  | JUndefined | JNull | JBool _ | JObj _ => None
  end.

End Builtins.

End JSValue.

(** ** [interface AnalysisResult] and [CaptionAnalyzer] *)

Module AnalysisResult.
Record t : Type := mk {
  score : Q;
  reasons : list jsval;
  emotions : list jsval;
  keywords : list jsval;
  summary : jsval
}.
End AnalysisResult.
Abbreviation AnalysisResult := AnalysisResult.t.

(** [AnalysisResult & {caption: Caption}], the object [{...analysis, caption}]. *)
Module ScoredCaption.
Record t : Type := mk {
  analysis : AnalysisResult;
  caption : Caption
}.
Definition score (r : t) : Q := AnalysisResult.score (analysis r).
End ScoredCaption.
Abbreviation ScoredCaption := ScoredCaption.t.

(** How one [axios.post] to the scorer ends: the promise is rejected, or it
    resolves to a response whose [data] is the given value. *)
Inductive PostOutcome : Type :=
| PostRejected (reason : string)
| PostResolved (data : jsval).

Module CaptionAnalyzer.

Section Analyzer.
(** The built-in parsers are taken as given: [JSON.parse] on a string
    ([None] when it throws a [SyntaxError]) and [parseFloat] on a string
    ([None] when it answers [NaN]). *)
Variable JSON_parse : string -> option jsval.
Variable parseFloatString : string -> option Q.

(** The value [result] that [parseAnalysisResult] reads its fields from. *)
Definition decodeResponse (responseText : jsval) : completion jsval :=
  match responseText with
  (* [typeof responseText === 'object']: [result = responseText as any] *)
  | JNull | JArr _ | JObj _ => Normal responseText
  (* otherwise [result = JSON.parse(responseText)] *)
  | JStr s =>
      match JSON_parse s with
      | Some parsed => Normal parsed
      | None => Throw SyntaxError
      end
  (* a number or a boolean is converted to its text and parses back *)
  | JNum n => Normal (JNum n)
  | JBool b => Normal (JBool b)
  (* the text of [undefined] is not JSON *)
  | JUndefined => Throw SyntaxError
  end.

(** [Array.isArray(v) ? v : []] *)
Definition arrayOrEmpty (v : jsval) : list jsval :=
  match v with
  | JArr elements => elements
  | _ => []
  end.

(** The object built in both branches of the [try] block from [result]. *)
Definition readResult (result : jsval) : completion AnalysisResult :=
  score <- JSValue.get result "score" ;;
  reasons <- JSValue.get result "reasons" ;;
  emotions <- JSValue.get result "emotions" ;;
  keywords <- JSValue.get result "keywords" ;;
  summary <- JSValue.get result "summary" ;;
  Normal {| AnalysisResult.score :=
              JSNumber.orDefault (JSValue.parseFloat parseFloatString score) 0;
            AnalysisResult.reasons := arrayOrEmpty reasons;
            AnalysisResult.emotions := arrayOrEmpty emotions;
            AnalysisResult.keywords := arrayOrEmpty keywords;
            AnalysisResult.summary :=
              if JSValue.truthy summary then summary else JStr "" |}.

Definition parseFailure : AnalysisResult :=
  {| AnalysisResult.score := 0;
     AnalysisResult.reasons := [JStr "Error parsing analysis result"];
     AnalysisResult.emotions := [];
     AnalysisResult.keywords := [];
     AnalysisResult.summary := JStr "Failed to parse analysis" |}.

Definition parseAnalysisResult (responseText : jsval) : completion AnalysisResult :=
  try_catch
    (result <- decodeResponse responseText ;;
     readResult result)
    (fun _ => Normal parseFailure).

Definition analysisFailure : AnalysisResult :=
  {| AnalysisResult.score := 0;
     AnalysisResult.reasons := [JStr "Error analyzing content"];
     AnalysisResult.emotions := [];
     AnalysisResult.keywords := [];
     AnalysisResult.summary := JStr "Analysis failed" |}.

(** [response.data.choices[0].message.content] *)
Definition messageContent (data : jsval) : completion jsval :=
  choices <- JSValue.get data "choices" ;;
  choice <- JSValue.get0 choices ;;
  message <- JSValue.get choice "message" ;;
  JSValue.get message "content".

(** [analyzeViralPotential(captionText)], given how the request it posts
    ends.  The request carries [captionText] inside a fixed prompt. *)
Definition analyzeViralPotential (post : string -> PostOutcome) (captionText : string)
  : completion AnalysisResult :=
  try_catch
    (match post captionText with
     | PostRejected reason => Throw (Rejected reason)
     | PostResolved data =>
         result <- messageContent data ;;
         parseAnalysisResult result
     end)
    (fun _ => Normal analysisFailure).

Definition batchSize : nat := 3.

(** [batch.map(async (caption) => ...)] for the batch that starts at index
    [i]: the request for [captions[k]] ends as [post k] says. *)
Definition batchPromises (post : nat -> string -> PostOutcome)
           (i : nat) (batch : list Caption) : list (completion ScoredCaption) :=
  JSArray.mapFrom
    (fun k caption =>
       analysis <- analyzeViralPotential (post k) (Caption.text caption) ;;
       Normal {| ScoredCaption.analysis := analysis;
                 ScoredCaption.caption := caption |})
    i batch.

(** [for (let i = 0; i < captions.length; i += batchSize)]; the pause
    between two batches takes time and changes no value. *)
Equations? batchLoop (post : nat -> string -> PostOutcome) (captions : list Caption)
          (i : nat) (results : list ScoredCaption)
  : completion (list ScoredCaption) by wf (length captions - i)%nat lt :=
  batchLoop post captions i results with lt_dec i (length captions) => {
    | right _ => Normal results
    | left _ with promiseAll
                    (batchPromises post i (JSArray.slice i (i + batchSize) captions)) => {
        | Throw e => Throw e
        | Normal batchResults =>
            batchLoop post captions (i + batchSize) (results ++ batchResults) } }.
Proof. unfold batchSize. lia. Qed.

Definition analyzeMultipleSegments (post : nat -> string -> PostOutcome)
           (captions : list Caption) : completion (list ScoredCaption) :=
  results <- batchLoop post captions 0 [] ;;
  Normal (JSArray.sort (JSArray.descending ScoredCaption.score) results).

End Analyzer.

End CaptionAnalyzer.

(** ** [interface EnhancedSegment] and [EnhancedViralDetector] *)

Module EnhancedSegment.
Record t : Type := mk {
  start : Q;
  end_ : Q;
  score : Q;
  type_ : Segment.kind;
  captionText : option string;
  aiAnalysis : option ScoredCaption;
  combinedScore : Q
}.
End EnhancedSegment.
Abbreviation EnhancedSegment := EnhancedSegment.t.

(** The objects [{start, end}] handed to [segmentsOverlap]. *)
Module Span.
Record t : Type := mk {
  start : Q;
  end_ : Q
}.
End Span.

(** The objects [{start, end, analysis}] built from the caption results. *)
Module CaptionSegment.
Record t : Type := mk {
  start : Q;
  end_ : Q;
  analysis : ScoredCaption
}.
End CaptionSegment.

Module EnhancedViralDetector.

Definition segmentsOverlap (segment1 segment2 : Span.t) : bool :=
  JSNumber.ltb (Span.start segment1) (Span.end_ segment2)
  && JSNumber.ltb (Span.start segment2) (Span.end_ segment1).

(** [{start: result.caption.start,
      end: result.caption.start + result.caption.duration,
      analysis: result}] *)
Definition captionSegmentOf (result : ScoredCaption) : CaptionSegment.t :=
  {| CaptionSegment.start := Caption.start (ScoredCaption.caption result);
     CaptionSegment.end_ := Caption.start (ScoredCaption.caption result)
                            + Caption.duration (ScoredCaption.caption result);
     CaptionSegment.analysis := result |}.

Definition findOverlappingCaptions (audioSegment : Segment)
           (captionSegments : list CaptionSegment.t) : list CaptionSegment.t :=
  filter (fun captionSegment =>
            segmentsOverlap
              {| Span.start := Segment.start audioSegment;
                 Span.end_ := Segment.end_ audioSegment |}
              {| Span.start := CaptionSegment.start captionSegment;
                 Span.end_ := CaptionSegment.end_ captionSegment |})
         captionSegments.

(** The enhanced segment pushed for one [audioSegment] by the first loop. *)
Definition enhanceAudioSegment (captionAnalysisResults : list ScoredCaption)
           (audioSegment : Segment) : EnhancedSegment :=
  let overlappingCaptions :=
    findOverlappingCaptions audioSegment
                            (map captionSegmentOf captionAnalysisResults) in
  match overlappingCaptions with
  | first :: _ =>
      let avgAiScore :=
        fold_left (fun sum caption =>
                     sum + ScoredCaption.score (CaptionSegment.analysis caption))
                  overlappingCaptions 0
        / JSNumber.ofNat (length overlappingCaptions) in
      let combinedCaptionText :=
        String.concat " "
          (map (fun caption =>
                  Caption.text (ScoredCaption.caption (CaptionSegment.analysis caption)))
               overlappingCaptions) in
      let bestAnalysis :=
        CaptionSegment.analysis
          (fold_left (fun best current =>
                        if JSNumber.gtb
                             (ScoredCaption.score (CaptionSegment.analysis current))
                             (ScoredCaption.score (CaptionSegment.analysis best))
                        then current else best)
                     overlappingCaptions first) in
      let audioWeight := 4 # 10 in
      let captionWeight := 6 # 10 in
      let combinedScore :=
        (Segment.score audioSegment * audioWeight) + (avgAiScore * captionWeight) in
      {| EnhancedSegment.start := Segment.start audioSegment;
         EnhancedSegment.end_ := Segment.end_ audioSegment;
         EnhancedSegment.score := Segment.score audioSegment;
         EnhancedSegment.type_ := Segment.type_ audioSegment;
         EnhancedSegment.captionText := Some combinedCaptionText;
         EnhancedSegment.aiAnalysis := Some bestAnalysis;
         EnhancedSegment.combinedScore := combinedScore |}
  | [] =>
      {| EnhancedSegment.start := Segment.start audioSegment;
         EnhancedSegment.end_ := Segment.end_ audioSegment;
         EnhancedSegment.score := Segment.score audioSegment;
         EnhancedSegment.type_ := Segment.type_ audioSegment;
         EnhancedSegment.captionText := None;
         EnhancedSegment.aiAnalysis := None;
         EnhancedSegment.combinedScore := Segment.score audioSegment * (7 # 10) |}
  end.

(** [for (const audioSegment of audioSegments)]: one push per iteration. *)
Definition audioLoop (captionAnalysisResults : list ScoredCaption)
           (audioSegments : list Segment) (enhancedSegments : list EnhancedSegment)
  : list EnhancedSegment :=
  fold_left (fun enhanced audioSegment =>
               enhanced ++ [enhanceAudioSegment captionAnalysisResults audioSegment])
            audioSegments enhancedSegments.

(** The segment pushed for a caption result that is kept by the second loop. *)
Definition captionOnlySegment (captionResult : ScoredCaption) : EnhancedSegment :=
  let captionSegment := captionSegmentOf captionResult in
  {| EnhancedSegment.start := CaptionSegment.start captionSegment;
     EnhancedSegment.end_ := CaptionSegment.end_ captionSegment;
     EnhancedSegment.score := 5 # 10;
     EnhancedSegment.type_ := Segment.speech;
     EnhancedSegment.captionText :=
       Some (Caption.text (ScoredCaption.caption captionResult));
     EnhancedSegment.aiAnalysis := Some captionResult;
     EnhancedSegment.combinedScore := ScoredCaption.score captionResult * (8 # 10) |}.

(** [enhancedSegments.some(segment => this.segmentsOverlap(segment, captionSegment))] *)
Definition hasOverlap (enhancedSegments : list EnhancedSegment)
           (captionSegment : CaptionSegment.t) : bool :=
  existsb (fun segment =>
             segmentsOverlap
               {| Span.start := EnhancedSegment.start segment;
                  Span.end_ := EnhancedSegment.end_ segment |}
               {| Span.start := CaptionSegment.start captionSegment;
                  Span.end_ := CaptionSegment.end_ captionSegment |})
          enhancedSegments.

(** One iteration of [for (const captionResult of captionAnalysisResults)]
    over the array [enhancedSegments], which the loop itself extends. *)
Definition captionStep (enhancedSegments : list EnhancedSegment)
           (captionResult : ScoredCaption) : list EnhancedSegment :=
  if JSNumber.ltb (ScoredCaption.score captionResult) (7 # 10)
  then enhancedSegments                                   (* [continue] *)
  else if negb (hasOverlap enhancedSegments (captionSegmentOf captionResult))
       then enhancedSegments ++ [captionOnlySegment captionResult]
       else enhancedSegments.

Definition captionLoop (captionAnalysisResults : list ScoredCaption)
           (enhancedSegments : list EnhancedSegment) : list EnhancedSegment :=
  fold_left captionStep captionAnalysisResults enhancedSegments.

(** The array [enhancedSegments] as it stands before the final sort. *)
Definition enhancedBeforeSort (audioSegments : list Segment)
           (captionAnalysisResults : list ScoredCaption) : list EnhancedSegment :=
  captionLoop captionAnalysisResults
              (audioLoop captionAnalysisResults audioSegments []).

Definition combineAudioAndCaptionAnalysis (audioSegments : list Segment)
           (captionAnalysisResults : list ScoredCaption) : list EnhancedSegment :=
  JSArray.sort (JSArray.descending EnhancedSegment.combinedScore)
               (enhancedBeforeSort audioSegments captionAnalysisResults).

Definition getTopSegments (segments : list EnhancedSegment) (count : nat)
  : list EnhancedSegment :=
  firstn count segments.

Definition filterSegmentsByDuration (segments : list EnhancedSegment)
           (minDuration maxDuration : Q) : list EnhancedSegment :=
  filter (fun segment =>
            let duration := EnhancedSegment.end_ segment - EnhancedSegment.start segment in
            JSNumber.geb duration minDuration && JSNumber.leb duration maxDuration)
         segments.

End EnhancedViralDetector.


(** ** [CaptionScraper]: keyword search and caption intervals *)

Module CaptionSearch.

(** [text.includes(search)]: [search] occurs somewhere in [text]. *)
Fixpoint includes (text search : string) : bool :=
  String.prefix search text
  || match text with
     | EmptyString => false
     | String _ rest => includes rest search
     end.

Section Search.
(** The built-in [String.prototype.toLowerCase] is taken as given. *)
Variable toLowerCase : string -> string.

Definition findSegmentsWithKeywords (captions : list Caption) (keywords : list string)
  : list Caption :=
  if (length captions =? 0)%nat || (length keywords =? 0)%nat then []
  else
    filter (fun caption =>
              let lowerText := toLowerCase (Caption.text caption) in
              existsb (fun keyword => includes lowerText (toLowerCase keyword)) keywords)
           captions.
End Search.

(** The objects [{start, end, text}] of [captionsToSegments]. *)
Record TimedText : Type := mkTimedText {
  start : Q;
  end_ : Q;
  text : string
}.

Definition captionsToSegments (captions : list Caption) : list TimedText :=
  map (fun caption =>
         {| start := Caption.start caption;
            end_ := Caption.start caption + Caption.duration caption;
            text := Caption.text caption |})
      captions.

End CaptionSearch.

(** ** [interface ClipResult] and [VideoClipper] *)

Module ClipResult.
Record t : Type := mk {
  inputPath : string;
  outputPath : string;
  segment : Segment;
  duration : Q;
  success : bool;
  error : option string
}.
End ClipResult.
Abbreviation ClipResult := ClipResult.t.

(** [error.message] for the exceptions that the clipper and the request
    handlers can meet: an [Error] carries its message and a rejection its
    reason.  The text of an engine-made error is not modelled; none is
    raised by the code embedded below. *)
Definition exceptionMessage (e : exception) : string :=
  match e with
  | Error message => message
  | Rejected reason => reason
  | TypeError => "TypeError"
  | SyntaxError => "SyntaxError"
  end.

(** [s || fallback] on a string that may be missing: [undefined] and the
    empty string are falsy. *)
Definition stringOr (s : option string) (fallback : string) : string :=
  match s with
  | Some x => if String.eqb x "" then fallback else x
  | None => fallback
  end.

(** [!s] on a string that may be missing. *)
Definition missingString (s : option string) : bool :=
  match s with
  | Some x => String.eqb x ""
  | None => true
  end.

Module VideoClipper.

(** How the ffmpeg command of one clip ends: with its [end] event or with
    an [error] event. *)
Inductive RenderOutcome : Type :=
| RenderEnd
| RenderError (message : string).

(** What the collaborators answer during one call of [clipSegment]. *)
Record ClipWorld : Type := mkWorld {
  existsSync : bool;          (* [fs.existsSync(videoPath)] *)
  render : RenderOutcome
}.

Section Clipper.
(** String formatting that involves the clock, the options of the clipper
    and the printing of numbers is taken as given:
    [path.join(outputDir, `${baseFilename}.${format}`)],
    [`clip_${Math.floor(start)}_${Math.floor(end)}_${Date.now()}`] and
    [`${baseFilename}_part${i+1}`]. *)
Variable outputPathOf : string -> string.
Variable generatedName : Segment -> string.
Variable partName : string -> nat -> string.

Definition clipSegment (world : ClipWorld) (videoPath : string) (segment : Segment)
           (outputFilename : option string) : completion ClipResult :=
  try_catch
    (_ <- (if negb (existsSync world)
           then Throw (Error ("Video file not found: " ++ videoPath))
           else Normal tt) ;;
     let duration := Segment.end_ segment - Segment.start segment in
     let baseFilename := stringOr outputFilename (generatedName segment) in
     let outputPath := outputPathOf baseFilename in
     match render world with
     | RenderEnd =>
         Normal {| ClipResult.inputPath := videoPath;
                   ClipResult.outputPath := outputPath;
                   ClipResult.segment := segment;
                   ClipResult.duration := duration;
                   ClipResult.success := true;
                   ClipResult.error := None |}
     | RenderError message =>
         Normal {| ClipResult.inputPath := videoPath;
                   ClipResult.outputPath := outputPath;
                   ClipResult.segment := segment;
                   ClipResult.duration := duration;
                   ClipResult.success := false;
                   ClipResult.error := Some message |}
     end)
    (fun error =>
       Normal {| ClipResult.inputPath := videoPath;
                 ClipResult.outputPath := "";
                 ClipResult.segment := segment;
                 ClipResult.duration := Segment.end_ segment - Segment.start segment;
                 ClipResult.success := false;
                 ClipResult.error := Some (exceptionMessage error) |}).

(** [for (let i = 0; i < segments.length; i++)], run over the segments that
    remain from index [i] on; the call for [segments[i]] meets [world i]. *)
Fixpoint clipLoop (world : nat -> ClipWorld) (videoPath : string)
         (baseFilename : option string) (i : nat) (segments : list Segment)
         (results : list ClipResult) : completion (list ClipResult) :=
  match segments with
  | [] => Normal results
  | segment :: rest =>
      let outputFilename :=
        if missingString baseFilename then None
        else Some (partName (stringOr baseFilename "") (i + 1)) in
      result <- clipSegment (world i) videoPath segment outputFilename ;;
      clipLoop world videoPath baseFilename (S i) rest (results ++ [result])
  end.

Definition clipMultipleSegments (world : nat -> ClipWorld) (videoPath : string)
           (segments : list Segment) (baseFilename : option string)
  : completion (list ClipResult) :=
  clipLoop world videoPath baseFilename 0 segments [].

End Clipper.

End VideoClipper.

(** ** The request handler [detect-segments] *)

Module Api.

(** The JSON bodies the handlers under [pages/api] answer with. *)
Inductive Body : Type :=
| ErrorBody (error : string)                         (* [{error}] *)
| FailureBody (message : string)                     (* [{success: false, message}] *)
| ClipsBody (clips : list ClipResult) (count : nat)  (* [{success: true, clips, count}] *)
| SegmentsBody (segments : list Segment) (count : nat).
                                                     (* [{success: true, segments, count}] *)

Record Response : Type := mkResponse {
  status : nat;
  body : Body
}.

(** [error.message || fallback] *)
Definition messageOr (e : exception) (fallback : string) : string :=
  stringOr (Some (exceptionMessage e)) fallback.

(** The fields the [detect-segments] handler reads from its request. *)
Record DetectRequest : Type := mkDetectRequest {
  detectMethod : string;
  detectVideoPath : option string
}.

(** [detect-segments], with the detector of [new ViralContentDetector()];
    [media] is what the collaborators answer for the given path. *)
Definition detectSegments (media : ViralContentDetector.Media) (req : DetectRequest)
  : completion Response :=
  if negb (String.eqb (detectMethod req) "POST")
  then Normal {| status := 405; body := ErrorBody "Method not allowed" |}
  else
    try_catch
      (if missingString (detectVideoPath req)
       then Normal {| status := 400; body := ErrorBody "Video path is required" |}
       else
         segments <- ViralContentDetector.detectViralSegments
                       (ViralContentDetector.constructor
                          (DetectionOptions.mkPartial None None None None))
                       media ;;
         if (length segments =? 0)%nat
         then Normal {| status := 404;
                        body := FailureBody "No viral segments detected in the video" |}
         else Normal {| status := 200;
                        body := SegmentsBody segments (length segments) |})
      (fun error =>
         Normal {| status := 500;
                   body := ErrorBody
                             (messageOr error
                                "An error occurred while detecting viral segments") |}).

End Api.
(* ===================================================================== *)
(** * Vocabulary of the properties *)
(* ===================================================================== *)

(** [a] may stand before [b] in an array ordered by [key] descending. *)
Definition keyGe {A : Type} (key : A -> Q) (a b : A) : Prop := key b <= key a.

(** *** Transcript segmenter *)

(** The captions of scenario A. *)
Definition scenarioA : list Caption :=
  [ Caption.mk 0 5 "a"; Caption.mk 5 5 "b"; Caption.mk 10 5 "c" ].

(** A segment respects the window, or is no longer than some single caption
    that is itself longer than the window. *)
Definition withinWindow (windowSeconds : Q) (captions : list Caption)
           (segment : Caption) : Prop :=
  Caption.duration segment <= windowSeconds
  \/ Exists (fun caption =>
               windowSeconds < Caption.duration caption
               /\ Caption.duration segment <= Caption.duration caption)
            captions.

(** Two captions, the second longer than a window of 8 seconds. *)
Definition longSecondCaption : list Caption :=
  [ Caption.mk 0 1 "a"; Caption.mk 1 100 "b" ].

(** *** Fusion engine *)

(** The interval [[start, end)] of an acoustic segment. *)
Definition audioSpan (A : Segment) : Span.t :=
  {| Span.start := Segment.start A; Span.end_ := Segment.end_ A |}.

(** The source interval [[start, start + duration)] of a relevance result. *)
Definition sourceSpan (R : ScoredCaption) : Span.t :=
  {| Span.start := Caption.start (ScoredCaption.caption R);
     Span.end_ := Caption.start (ScoredCaption.caption R)
                  + Caption.duration (ScoredCaption.caption R) |}.

(** The interval of a fused segment. *)
Definition fusedSpan (F : EnhancedSegment) : Span.t :=
  {| Span.start := EnhancedSegment.start F; Span.end_ := EnhancedSegment.end_ F |}.

(** The relevance results whose source interval overlaps [A], in input order. *)
Definition overlapping (A : Segment) (results : list ScoredCaption) : list ScoredCaption :=
  filter (fun R => EnhancedViralDetector.segmentsOverlap (audioSpan A) (sourceSpan R))
         results.

Definition total (xs : list Q) : Q := fold_right Qplus 0 xs.

Definition mean (xs : list Q) : Q := total xs / JSNumber.ofNat (length xs).

(** [best] is the element of [results] with the maximum score, the first of
    them when several share it. *)
Definition firstMaximum (results : list ScoredCaption) (best : ScoredCaption) : Prop :=
  exists before after,
    results = before ++ best :: after
    /\ Forall (fun R => ScoredCaption.score R < ScoredCaption.score best) before
    /\ Forall (fun R => ScoredCaption.score R <= ScoredCaption.score best) after.

(** The step of the [reduce] that keeps the better of [best] and [current]. *)
Definition keepBest (best current : CaptionSegment.t) : CaptionSegment.t :=
  if JSNumber.gtb (ScoredCaption.score (CaptionSegment.analysis current))
                  (ScoredCaption.score (CaptionSegment.analysis best))
  then current else best.

(** [F] is the fused segment of the acoustic segment [A]: the acoustic
    fields are those of [A], and the three added fields follow the
    relevance results that overlap [A]. *)
Definition fusedFromAudio (results : list ScoredCaption)
           (A : Segment) (F : EnhancedSegment) : Prop :=
  EnhancedSegment.start F = Segment.start A
  /\ EnhancedSegment.end_ F = Segment.end_ A
  /\ EnhancedSegment.score F = Segment.score A
  /\ EnhancedSegment.type_ F = Segment.type_ A
  /\ match overlapping A results with
     | [] =>
         EnhancedSegment.combinedScore F == (7 # 10) * Segment.score A
         /\ EnhancedSegment.captionText F = None
         /\ EnhancedSegment.aiAnalysis F = None
     | (_ :: _) as overlaps =>
         EnhancedSegment.combinedScore F
         == (4 # 10) * Segment.score A
            + (6 # 10) * mean (map ScoredCaption.score overlaps)
         /\ EnhancedSegment.captionText F
            = Some (String.concat " "
                      (map (fun R => Caption.text (ScoredCaption.caption R)) overlaps))
         /\ exists best,
             EnhancedSegment.aiAnalysis F = Some best /\ firstMaximum overlaps best
     end.

(** [R] qualifies as an orphan against the fused segments produced so far. *)
Definition orphanAgainst (fused : list EnhancedSegment) (R : ScoredCaption) : Prop :=
  7 # 10 <= ScoredCaption.score R
  /\ Forall (fun F =>
               EnhancedViralDetector.segmentsOverlap (fusedSpan F) (sourceSpan R) = false)
            fused.

(** [F] is the fused segment emitted for the orphan [R]. *)
Definition fusedFromOrphan (R : ScoredCaption) (F : EnhancedSegment) : Prop :=
  fusedSpan F = sourceSpan R
  /\ EnhancedSegment.score F = 5 # 10
  /\ EnhancedSegment.type_ F = Segment.speech
  /\ EnhancedSegment.combinedScore F == (8 # 10) * ScoredCaption.score R.

(** The orphan step: [orphanPass fused results final] holds when going
    through [results] in order, emitting a segment for each result that is
    an orphan against everything produced so far, leads from [fused] to
    [final]. *)
Inductive orphanPass : list EnhancedSegment -> list ScoredCaption
                       -> list EnhancedSegment -> Prop :=
| orphanPass_done fused :
    orphanPass fused [] fused
| orphanPass_emit fused R rest F final :
    orphanAgainst fused R ->
    fusedFromOrphan R F ->
    orphanPass (fused ++ [F]) rest final ->
    orphanPass fused (R :: rest) final
| orphanPass_skip fused R rest final :
    ~ orphanAgainst fused R ->
    orphanPass fused rest final ->
    orphanPass fused (R :: rest) final.

(** The segments the second loop appended: what follows the one segment per
    acoustic input in the array before it is sorted. *)
Definition orphanSegments (audio : list Segment) (results : list ScoredCaption)
  : list EnhancedSegment :=
  skipn (length audio) (EnhancedViralDetector.enhancedBeforeSort audio results).

(** Two relevance results of score 0.9 with overlapping source intervals
    [[0, 10)] and [[5, 15)], and no acoustic segment. *)
Definition overlappingOrphans : list ScoredCaption :=
  [ ScoredCaption.mk (AnalysisResult.mk (9 # 10) [] [] [] (JStr "")) (Caption.mk 0 10 "x");
    ScoredCaption.mk (AnalysisResult.mk (9 # 10) [] [] [] (JStr "")) (Caption.mk 5 10 "y") ].

(** *** Acoustic segment detector *)

(** The duration of [segment] is within the configured bounds. *)
Definition durationInRange (options : DetectionOptions) (segment : Segment) : Prop :=
  DetectionOptions.minSegmentDuration options
  <= Segment.end_ segment - Segment.start segment
  /\ Segment.end_ segment - Segment.start segment
     <= DetectionOptions.maxSegmentDuration options.

(** The audio input cannot be read: the file is missing, or extracting or
    probing it fails. *)
Definition unreadable (media : ViralContentDetector.Media) : Prop :=
  ViralContentDetector.existsSync media = false
  \/ throws (ViralContentDetector.extractAudio media)
  \/ throws (ViralContentDetector.ffprobeDuration media).

(** The audio input has zero duration: the probe answers 0 or no duration. *)
Definition zeroDuration (media : ViralContentDetector.Media) : Prop :=
  exists metadata,
    ViralContentDetector.ffprobeDuration media = Normal metadata
    /\ JSNumber.orDefault metadata 0 == 0.

(** The options of a detector constructed without arguments. *)
Definition defaultOptions : DetectionOptions :=
  ViralContentDetector.constructor (DetectionOptions.mkPartial None None None None).

(** A video path at which no file exists. *)
Definition missingFile : ViralContentDetector.Media :=
  {| ViralContentDetector.existsSync := false;
     ViralContentDetector.extractAudio := Throw (Rejected "ffmpeg: no such file");
     ViralContentDetector.ffprobeDuration := Throw (Rejected "ffprobe: no such file");
     ViralContentDetector.analyzeEnergyLevels := [];
     ViralContentDetector.removeAudio := Normal tt |}.

(** A readable file whose audio has zero duration. *)
Definition emptyAudio : ViralContentDetector.Media :=
  {| ViralContentDetector.existsSync := true;
     ViralContentDetector.extractAudio := Normal "video_audio.wav";
     ViralContentDetector.ffprobeDuration := Normal (Some 0);
     ViralContentDetector.analyzeEnergyLevels := [9 # 10; 8 # 10; 1 # 10; 7 # 10];
     ViralContentDetector.removeAudio := Normal tt |}.

(** *** Transcript relevance scorer *)

Section ScorerVocabulary.
Variable JSON_parse : string -> option jsval.
Variable parseFloatString : string -> option Q.

(** The request fails: the network call is rejected, or the response has
    no [choices[0].message] to read the content from. *)
Definition requestFails (outcome : PostOutcome) : Prop :=
  match outcome with
  | PostRejected _ => True
  | PostResolved data => throws (CaptionAnalyzer.messageContent data)
  end.

(** The content of a response cannot be parsed: decoding it or reading the
    fields of the decoded value throws. *)
Definition unparseable (content : jsval) : Prop :=
  throws (result <- CaptionAnalyzer.decodeResponse JSON_parse content ;;
          CaptionAnalyzer.readResult parseFloatString result).

(** An individual scoring call fails. *)
Definition scoringFails (outcome : PostOutcome) : Prop :=
  requestFails outcome
  \/ exists data content,
       outcome = PostResolved data
       /\ CaptionAnalyzer.messageContent data = Normal content
       /\ unparseable content.

(** A zero-score result that carries one diagnostic reason. *)
Definition diagnosedFailure (r : AnalysisResult) : Prop :=
  AnalysisResult.score r = 0
  /\ exists message, message <> "" /\ AnalysisResult.reasons r = [JStr message].

(** The result of the scoring call for one caption text. *)
Definition analysisOf (post : string -> PostOutcome) (captionText : string)
  : AnalysisResult :=
  match CaptionAnalyzer.analyzeViralPotential JSON_parse parseFloatString
                                              post captionText with
  | Normal r => r
  | Throw _ => CaptionAnalyzer.analysisFailure
  end.

(** The scored caption for [captions[k]]. *)
Definition scoredCaptionOf (post : nat -> string -> PostOutcome)
           (k : nat) (caption : Caption) : ScoredCaption :=
  {| ScoredCaption.analysis := analysisOf (post k) (Caption.text caption);
     ScoredCaption.caption := caption |}.


End ScorerVocabulary.


(** Parsers that accept nothing, for responses that need none. *)
Definition rejectJSON : string -> option jsval := fun _ => None.
Definition rejectNumber : string -> option Q := fun _ => None.

(** *** Scenarios *)

(** Scenario B: one acoustic segment and one overlapping relevance result. *)
Definition scenarioB_audio : Segment := Segment.mk 100 115 (75 # 100) Segment.speech.
Definition scenarioB_result : ScoredCaption :=
  ScoredCaption.mk (AnalysisResult.mk (9 # 10) [] [] [] (JStr "")) (Caption.mk 105 15 "hook").

(** Scenario C: a relevance result of score 0.85 with no acoustic segment. *)
Definition scenarioC_result : ScoredCaption :=
  ScoredCaption.mk (AnalysisResult.mk (85 # 100) [] [] [] (JStr "")) (Caption.mk 30 15 "story").

(** Three requests: a network error, a content that is not JSON, and a
    well-formed answer of score 0.9. *)
Definition threeCalls (k : nat) (captionText : string) : PostOutcome :=
  match k with
  | 0%nat => PostRejected "timeout"
  | 1%nat =>
      PostResolved
        (JObj [("choices", JArr [JObj [("message", JObj [("content", JStr "sorry")])]])])
  | _ =>
      PostResolved
        (JObj [("choices",
                JArr [JObj [("message",
                             JObj [("content",
                                    JObj [("score", JNum (9 # 10));
                                          ("reasons", JArr [JStr "funny"])])])]])])
  end.

Definition threeCaptions : list Caption :=
  [ Caption.mk 0 15 "a"; Caption.mk 15 15 "b"; Caption.mk 30 15 "c" ].


(** Ten energy samples over 200 seconds: a burst of 20 seconds, one of 80
    seconds and one that lasts until the end of the audio. *)
Definition tenSamples : list Q :=
  [ 9 # 10; 1 # 10; 9 # 10; 9 # 10; 9 # 10; 9 # 10; 1 # 10; 9 # 10; 9 # 10; 9 # 10 ].

(** *** Further vocabulary *)

(** The durations of [run] added from left to right, starting from 0, the
    order in which the grouping loop adds them to its accumulator. *)
Definition runSum (run : list Caption) : Q :=
  fold_left (fun acc c => acc + Caption.duration c) run 0.

(** [segment] stands for the run of consecutive captions [run]: it starts
    where the first caption of the run starts and its duration is the
    left-to-right sum of the run's durations. *)
Definition summarisesRun (run : list Caption) (segment : Caption) : Prop :=
  match run with
  | [] => False
  | first :: _ =>
      Caption.start segment = Caption.start first
      /\ Caption.duration segment == runSum run
  end.

(** The sum of the durations of a caption sequence. *)
Definition totalDuration (captions : list Caption) : Q :=
  total (map Caption.duration captions).

(** The texts of a caption sequence, joined by single spaces. *)
Definition joinedText (captions : list Caption) : string :=
  String.concat " " (map Caption.text captions).

(** Every element of [l], each preceded by a space. *)
Definition spaced (l : list string) : string :=
  fold_right (fun s rest => (" " ++ s ++ rest)%string) "" l.

(** Two captions whose [dur] attribute was missing, hence of duration 0. *)
Definition untimedCaptions : list Caption :=
  [ Caption.mk 0 0 "a"; Caption.mk 1 0 "b" ].

(** [a] ends before [b] starts. *)
Definition precedes (a b : Segment) : Prop := Segment.end_ a <= Segment.start b.

(** [segment] is a well-formed interval inside the audio. *)
Definition withinAudio (audioDuration : Q) (segment : Segment) : Prop :=
  0 <= Segment.start segment
  /\ Segment.start segment <= Segment.end_ segment
  /\ Segment.end_ segment <= audioDuration.

(** The time of sample [i] out of [n] in an audio of the given duration. *)
Definition timePoint (n : nat) (audioDuration : Q) (i : nat) : Q :=
  JSNumber.ofNat i / JSNumber.ofNat n * audioDuration.

(** What holds of the state of the detector's loop: the candidates kept so
    far follow one another in time inside [[0, bound]], and an open
    candidate starts after all of them. *)
Definition loopOrdered (bound : Q) (segments : list Segment)
           (currentSegment : option ViralContentDetector.OpenSegment) : Prop :=
  StronglySorted precedes segments
  /\ Forall (withinAudio bound) segments
  /\ match currentSegment with
     | Some current =>
         0 <= ViralContentDetector.openStart current
         /\ ViralContentDetector.openStart current <= bound
         /\ Forall (fun s => Segment.end_ s <= ViralContentDetector.openStart current)
                   segments
     | None => True
     end.

(** A readable file of 200 seconds whose samples are [tenSamples]. *)
Definition longAudio : ViralContentDetector.Media :=
  {| ViralContentDetector.existsSync := true;
     ViralContentDetector.extractAudio := Normal "video_audio.wav";
     ViralContentDetector.ffprobeDuration := Normal (Some 200);
     ViralContentDetector.analyzeEnergyLevels := tenSamples;
     ViralContentDetector.removeAudio := Normal tt |}.

(** Options given with an explicit minimum duration of 0. *)
Definition noMinimum : DetectionOptions.partial :=
  DetectionOptions.mkPartial (Some 0) None None None.

(** A well-formed answer of the scorer. *)
Definition wellFormedAnswer : jsval :=
  JObj [ ("score", JNum (8 # 10));
         ("reasons", JArr [JStr "surprising"]);
         ("emotions", JArr [JStr "joy"]);
         ("keywords", JArr [JStr "launch"; JStr "record"]);
         ("summary", JStr "A record launch") ].

(** A score between 0 and 1. *)
Definition unitScore (x : Q) : Prop := 0 <= x <= 1.

(** The duration of a fused segment is within the given bounds. *)
Definition fusedDurationIn (minDuration maxDuration : Q) (F : EnhancedSegment) : Prop :=
  minDuration <= EnhancedSegment.end_ F - EnhancedSegment.start F
  /\ EnhancedSegment.end_ F - EnhancedSegment.start F <= maxDuration.

(** The elements of [l] whose combined score equals [k], in order. *)
Definition withCombinedScore (k : Q) (l : list EnhancedSegment) : list EnhancedSegment :=
  filter (fun F => Qeq_bool (EnhancedSegment.combinedScore F) k) l.

(** *** Clipper and request handlers *)

(** The clip of this call is rendered: the video exists and ffmpeg ends. *)
Definition rendered (world : VideoClipper.ClipWorld) : bool :=
  VideoClipper.existsSync world
  && match VideoClipper.render world with
     | VideoClipper.RenderEnd => true
     | VideoClipper.RenderError _ => false
     end.

(** A request to detect segments in a video. *)
Definition detectRequest : Api.DetectRequest :=
  Api.mkDetectRequest "POST" (Some "downloads/video.mp4").

(** *** Keyword search *)

(** Lower case for the letters A to Z, every other character unchanged. *)
Definition asciiLower (c : ascii) : ascii :=
  let n := nat_of_ascii c in
  if ((65 <=? n) && (n <=? 90))%nat then ascii_of_nat (n + 32) else c.

Fixpoint lowerASCII (s : string) : string :=
  match s with
  | EmptyString => EmptyString
  | String c rest => String (asciiLower c) (lowerASCII rest)
  end.

(** *** The fusion rule in explicit inequalities *)

(** The half-open intervals [[s1, e1)] and [[s2, e2)] overlap: each starts
    before the other ends. *)
Definition halfOpenOverlap (s1 e1 s2 e2 : Q) : Prop := s1 < e2 /\ s2 < e1.

(** The source interval [[start, start + duration)] of [R] overlaps the
    interval [[start, end)] of the acoustic segment [A]. *)
Definition overlapsAudio (A : Segment) (R : ScoredCaption) : Prop :=
  halfOpenOverlap
    (Segment.start A) (Segment.end_ A)
    (Caption.start (ScoredCaption.caption R))
    (Caption.start (ScoredCaption.caption R)
     + Caption.duration (ScoredCaption.caption R)).

(** The source interval of [R] overlaps the interval of the fused segment [F]. *)
Definition overlapsFused (F : EnhancedSegment) (R : ScoredCaption) : Prop :=
  halfOpenOverlap
    (EnhancedSegment.start F) (EnhancedSegment.end_ F)
    (Caption.start (ScoredCaption.caption R))
    (Caption.start (ScoredCaption.caption R)
     + Caption.duration (ScoredCaption.caption R)).

(** [chosen] holds exactly the elements of [all] that satisfy [P], in the
    order of [all]. *)
Inductive keptInOrder {A : Type} (P : A -> Prop) : list A -> list A -> Prop :=
| keptInOrder_nil :
    keptInOrder P [] []
| keptInOrder_keep x all chosen :
    P x -> keptInOrder P all chosen -> keptInOrder P (x :: all) (x :: chosen)
| keptInOrder_drop x all chosen :
    ~ P x -> keptInOrder P all chosen -> keptInOrder P (x :: all) chosen.

(** [F] is the fused segment of the acoustic segment [A]: the acoustic
    fields are those of [A]; with [overlaps] the relevance results whose
    source interval overlaps [A], in input order, the combined score is
    0.4 times the acoustic score plus 0.6 times their mean score, the
    caption text is their texts joined by spaces and the attached analysis
    is the first of maximum score; when there is none, the combined score
    is 0.7 times the acoustic score and nothing is attached. *)
Definition fusedAudioSegment (results : list ScoredCaption)
           (A : Segment) (F : EnhancedSegment) : Prop :=
  exists overlaps,
    keptInOrder (overlapsAudio A) results overlaps
    /\ EnhancedSegment.start F = Segment.start A
    /\ EnhancedSegment.end_ F = Segment.end_ A
    /\ EnhancedSegment.score F = Segment.score A
    /\ EnhancedSegment.type_ F = Segment.type_ A
    /\ match overlaps with
       | [] =>
           EnhancedSegment.combinedScore F == (7 # 10) * Segment.score A
           /\ EnhancedSegment.captionText F = None
           /\ EnhancedSegment.aiAnalysis F = None
       | _ :: _ =>
           EnhancedSegment.combinedScore F
           == (4 # 10) * Segment.score A
              + (6 # 10) * mean (map ScoredCaption.score overlaps)
           /\ EnhancedSegment.captionText F
              = Some (String.concat " "
                        (map (fun R => Caption.text (ScoredCaption.caption R)) overlaps))
           /\ exists best,
               EnhancedSegment.aiAnalysis F = Some best /\ firstMaximum overlaps best
       end.

(** [R] is an orphan against the fused segments produced so far: its score
    is at least 0.7 and its source interval overlaps none of them. *)
Definition orphanCandidate (fused : list EnhancedSegment) (R : ScoredCaption) : Prop :=
  7 # 10 <= ScoredCaption.score R
  /\ Forall (fun F => ~ overlapsFused F R) fused.

(** [F] is the segment emitted for the orphan [R]: it spans the source
    interval of [R], with score 0.5, type speech and a combined score of
    0.8 times the score of [R]. *)
Definition orphanSegmentOf (R : ScoredCaption) (F : EnhancedSegment) : Prop :=
  EnhancedSegment.start F = Caption.start (ScoredCaption.caption R)
  /\ EnhancedSegment.end_ F
     = Caption.start (ScoredCaption.caption R)
       + Caption.duration (ScoredCaption.caption R)
  /\ EnhancedSegment.score F = 5 # 10
  /\ EnhancedSegment.type_ F = Segment.speech
  /\ EnhancedSegment.combinedScore F == (8 # 10) * ScoredCaption.score R.

(** The orphan step: going through [results] in order, a segment is emitted
    for each result that is an orphan against everything produced so far,
    the orphans emitted before it included, and for no other. *)
Inductive orphanRun : list EnhancedSegment -> list ScoredCaption
                      -> list EnhancedSegment -> Prop :=
| orphanRun_done fused :
    orphanRun fused [] fused
| orphanRun_emit fused R rest F final :
    orphanCandidate fused R ->
    orphanSegmentOf R F ->
    orphanRun (fused ++ [F]) rest final ->
    orphanRun fused (R :: rest) final
| orphanRun_skip fused R rest final :
    ~ orphanCandidate fused R ->
    orphanRun fused rest final ->
    orphanRun fused (R :: rest) final.

(** Three relevance results of score 0.9 over [[0, 10)], [[5, 15)] and
    [[12, 20)]: the second overlaps both others, which do not overlap. *)
Definition chainedOrphans : list ScoredCaption :=
  [ ScoredCaption.mk (AnalysisResult.mk (9 # 10) [] [] [] (JStr "")) (Caption.mk 0 10 "x");
    ScoredCaption.mk (AnalysisResult.mk (9 # 10) [] [] [] (JStr "")) (Caption.mk 5 10 "y");
    ScoredCaption.mk (AnalysisResult.mk (9 # 10) [] [] [] (JStr "")) (Caption.mk 12 8 "z") ].

(* ===================================================================== *)
(** * Part II: properties *)
(* ===================================================================== *)

(** ** Numbers *)

Section NumberFacts.

Lemma ltb_lt x y : JSNumber.ltb x y = true <-> x < y.
Proof.
  unfold JSNumber.ltb. rewrite negb_true_iff. split; intro H.
  - apply Qnot_le_lt. intro Hle. apply Qle_bool_iff in Hle. congruence.
  - destruct (Qle_bool y x) eqn:E; [|reflexivity].
    apply Qle_bool_iff in E. exfalso. exact (Qlt_not_le _ _ H E).
Qed.

Lemma ltb_ge x y : JSNumber.ltb x y = false <-> y <= x.
Proof. unfold JSNumber.ltb. rewrite negb_false_iff. apply Qle_bool_iff. Qed.

Lemma gtb_gt x y : JSNumber.gtb x y = true <-> y < x.
Proof. apply ltb_lt. Qed.

Lemma gtb_le x y : JSNumber.gtb x y = false <-> x <= y.
Proof. apply ltb_ge. Qed.

Lemma leb_le x y : JSNumber.leb x y = true <-> x <= y.
Proof. apply Qle_bool_iff. Qed.

Lemma geb_ge x y : JSNumber.geb x y = true <-> y <= x.
Proof. apply Qle_bool_iff. Qed.

Lemma geb_lt x y : JSNumber.geb x y = false <-> x < y.
Proof.
  unfold JSNumber.geb. split; intro H.
  - apply Qnot_le_lt. intro Hle. apply Qle_bool_iff in Hle. congruence.
  - destruct (Qle_bool y x) eqn:E; [|reflexivity].
    apply Qle_bool_iff in E. exfalso. exact (Qlt_not_le _ _ H E).
Qed.

End NumberFacts.

(** Turns the boolean tests of the sources into order facts on [Q]. *)
Ltac js_order :=
  repeat match goal with
  | H : andb _ _ = true |- _ => apply andb_true_iff in H; destruct H
  | H : JSNumber.ltb _ _ = true |- _ => apply ltb_lt in H
  | H : JSNumber.ltb _ _ = false |- _ => apply ltb_ge in H
  | H : JSNumber.gtb _ _ = true |- _ => apply gtb_gt in H
  | H : JSNumber.gtb _ _ = false |- _ => apply gtb_le in H
  | H : JSNumber.leb _ _ = true |- _ => apply leb_le in H
  | H : JSNumber.geb _ _ = true |- _ => apply geb_ge in H
  | H : JSNumber.geb _ _ = false |- _ => apply geb_lt in H
  end.

(** ** The stable sort *)

Section SortFacts.
Context {A : Type}.
Variable compareFn : A -> A -> Q.

Lemma insert_perm x l : Permutation (x :: l) (JSArray.insert compareFn x l).
Proof.
  induction l as [|y ys IH]; simpl.
  - apply Permutation_refl.
  - destruct (Qle_bool (compareFn x y) 0).
    + apply Permutation_refl.
    + eapply perm_trans; [apply perm_swap|].
      apply perm_skip. exact IH.
Qed.

Lemma sort_perm l : Permutation l (JSArray.sort compareFn l).
Proof.
  induction l as [|x xs IH]; simpl.
  - constructor.
  - eapply perm_trans; [|apply insert_perm].
    apply perm_skip. exact IH.
Qed.

Lemma sort_length l : length (JSArray.sort compareFn l) = length l.
Proof. symmetry. apply Permutation_length, sort_perm. Qed.

Lemma sort_Forall (P : A -> Prop) l : Forall P l -> Forall P (JSArray.sort compareFn l).
Proof. intro H. eapply Permutation_Forall; [apply sort_perm|exact H]. Qed.

End SortFacts.

Section DescendingFacts.
Context {A : Type}.
Variable key : A -> Q.

Lemma descending_le0 a b :
  Qle_bool (JSArray.descending key a b) 0 = true <-> keyGe key a b.
Proof.
  unfold JSArray.descending, keyGe. rewrite Qle_bool_iff. split; intro H; lra.
Qed.

Lemma insert_sorted x l :
  StronglySorted (keyGe key) l ->
  StronglySorted (keyGe key) (JSArray.insert (JSArray.descending key) x l).
Proof.
  induction 1 as [|y ys Hs IH Hall]; simpl.
  - constructor; constructor.
  - destruct (Qle_bool (JSArray.descending key x y) 0) eqn:E.
    + apply descending_le0 in E.
      constructor; [constructor; assumption|].
      constructor; [exact E|].
      eapply Forall_impl; [|exact Hall].
      intros z Hz. unfold keyGe in *. lra.
    + assert (Hyx : keyGe key y x).
      { unfold keyGe. apply Qlt_le_weak, Qnot_le_lt. intro Hle.
        assert (Hb : Qle_bool (JSArray.descending key x y) 0 = true)
          by (apply descending_le0; exact Hle).
        congruence. }
      constructor; [exact IH|].
      eapply Permutation_Forall; [apply insert_perm|].
      constructor; assumption.
Qed.

Lemma sort_sorted l :
  StronglySorted (keyGe key) (JSArray.sort (JSArray.descending key) l).
Proof.
  induction l as [|x xs IH]; simpl.
  - constructor.
  - apply insert_sorted. exact IH.
Qed.

End DescendingFacts.

(** ** Transcript segmenter: [groupCaptionsIntoSegments] *)

Section GroupFacts.
Import CaptionScraper.

(** The loop invariant behind the duration bound: every flushed segment is
    within the window (or excused by an over-long caption), and so is the
    accumulator once it has content. *)
Lemma groupStep_withinWindow w captions :
  forall l segments current,
    Forall (fun c => In c captions) l ->
    Forall (withinWindow w captions) segments ->
    (Caption.duration current <= 0 \/ withinWindow w captions current) ->
    let '(segments', current') := fold_left (groupStep w) l (segments, current) in
    Forall (withinWindow w captions) segments'
    /\ (Caption.duration current' <= 0 \/ withinWindow w captions current').
Proof.
  induction l as [|c l IH]; intros segments current Hin Hsegs Hcur; simpl.
  - split; assumption.
  - inversion Hin as [|? ? Hc Hl]; subst.
    assert (Hsingle : forall s : Caption,
               Caption.duration s <= Caption.duration c -> withinWindow w captions s).
    { intros s Hs. destruct (Qlt_le_dec w (Caption.duration c)) as [Hlong|Hshort].
      - right. apply Exists_exists. exists c. auto.
      - left. lra. }
    destruct (JSNumber.gtb (Caption.duration current) 0
              && JSNumber.gtb (Caption.duration current + Caption.duration c) w) eqn:E.
    + apply IH; [assumption| |].
      * apply Forall_app. split; [assumption|].
        constructor; [|constructor].
        js_order. destruct Hcur as [Hcur|Hcur]; [lra|exact Hcur].
      * right. apply Hsingle. simpl. lra.
    + apply IH; [assumption|assumption|].
      right. apply andb_false_iff in E. destruct E as [E|E]; js_order.
      * apply Hsingle. simpl. lra.
      * left. simpl. exact E.
Qed.

Lemma group_withinWindow captions w :
  Forall (withinWindow w captions) (groupCaptionsIntoSegments captions w).
Proof.
  unfold groupCaptionsIntoSegments. destruct captions as [|first rest]; [constructor|].
  set (captions := first :: rest).
  pose proof (groupStep_withinWindow w captions captions []
                {| Caption.start := Caption.start first;
                   Caption.duration := 0; Caption.text := "" |}) as H.
  destruct (fold_left (groupStep w) captions _) as [segments current].
  destruct H as [Hsegs Hcur].
  - apply Forall_forall. auto.
  - constructor.
  - left. simpl. lra.
  - destruct (JSNumber.gtb (Caption.duration current) 0) eqn:E; [|exact Hsegs].
    apply Forall_app. split; [exact Hsegs|].
    constructor; [|constructor].
    js_order. destruct Hcur as [Hcur|Hcur]; [lra|exact Hcur].
Qed.


End GroupFacts.

(** C4 (as stated): on scenario A with a window of 8 seconds the result is
    not the two segments [{0, 10, " a b"}] and [{10, 5, " c"}]; it does not
    even have two elements. *)
Lemma scenarioA_not_two_segments :
  length (CaptionScraper.groupCaptionsIntoSegments scenarioA 8) <> 2%nat
  /\ CaptionScraper.groupCaptionsIntoSegments scenarioA 8
     <> [ Caption.mk 0 10 " a b"; Caption.mk 10 5 " c" ].
Proof. split; vm_compute; discriminate. Qed.

(** C4 (amended): on scenario A with a window of 8 seconds, where 5 + 5
    exceeds the window, every caption is flushed on its own: the result is
    exactly [{0, 5, " a"}], [{5, 5, "b"}], [{10, 5, "c"}]. *)
Theorem scenarioA_three_segments :
  CaptionScraper.groupCaptionsIntoSegments scenarioA 8
  = [ Caption.mk 0 5 " a"; Caption.mk 5 5 "b"; Caption.mk 10 5 "c" ].
Proof. vm_compute. reflexivity. Qed.

(** C5 (as stated): with a positive window of 8 seconds, the second output
    segment, not the first, is longer than the window. *)
Lemma second_segment_exceeds_window :
  longSecondCaption <> []
  /\ 0 < 8
  /\ nth_error (CaptionScraper.groupCaptionsIntoSegments longSecondCaption 8) 1
     = Some (Caption.mk 1 100 "b")
  /\ ~ Caption.duration (Caption.mk 1 100 "b") <= 8.
Proof.
  repeat split; try discriminate.
  intro H. vm_compute in H. apply H. reflexivity.
Qed.

(** C5 (amended): for every caption sequence and every window, every segment
    returned by [groupCaptionsIntoSegments] has a duration of at most the
    window, except that a segment, at any position of the output, may be as
    long as a single caption whose own duration exceeds the window. *)
Theorem group_duration_within_window captions windowSeconds :
  Forall (withinWindow windowSeconds captions)
         (CaptionScraper.groupCaptionsIntoSegments captions windowSeconds).
Proof. apply group_withinWindow. Qed.





(** ** Fusion engine: [combineAudioAndCaptionAnalysis] *)

Section FusionFacts.
Import EnhancedViralDetector.

Lemma audioLoop_map results audio enhanced :
  audioLoop results audio enhanced
  = enhanced ++ map (enhanceAudioSegment results) audio.
Proof.
  unfold audioLoop. revert enhanced.
  induction audio as [|A audio IH]; intro enhanced; simpl.
  - rewrite app_nil_r. reflexivity.
  - rewrite IH, <- app_assoc. reflexivity.
Qed.

Lemma findOverlapping_overlapping A results :
  findOverlappingCaptions A (map captionSegmentOf results)
  = map captionSegmentOf (overlapping A results).
Proof.
  unfold findOverlappingCaptions, overlapping.
  induction results as [|R results IH]; [reflexivity|].
  cbn [map filter]. rewrite IH.
  change {| Span.start := CaptionSegment.start (captionSegmentOf R);
            Span.end_ := CaptionSegment.end_ (captionSegmentOf R) |}
    with (sourceSpan R).
  change {| Span.start := Segment.start A; Span.end_ := Segment.end_ A |}
    with (audioSpan A).
  destruct (segmentsOverlap (audioSpan A) (sourceSpan R)); reflexivity.
Qed.

(** The running sum of the [reduce] agrees with the sum of the scores. *)
Lemma reduce_sum (l : list CaptionSegment.t) acc :
  fold_left (fun sum caption =>
               sum + ScoredCaption.score (CaptionSegment.analysis caption)) l acc
  == acc + total (map (fun c => ScoredCaption.score (CaptionSegment.analysis c)) l).
Proof.
  revert acc. induction l as [|c l IH]; intro acc; simpl.
  - lra.
  - rewrite IH. unfold total. simpl. lra.
Qed.

Lemma reduce_best_firstMaximum (l seen : list ScoredCaption) (best : ScoredCaption) :
  firstMaximum seen best ->
  firstMaximum (seen ++ l)
    (CaptionSegment.analysis
       (fold_left keepBest (map captionSegmentOf l) (captionSegmentOf best))).
Proof.
  revert seen best. induction l as [|R l IH]; intros seen best Hbest; simpl.
  - rewrite app_nil_r. exact Hbest.
  - replace (seen ++ R :: l) with ((seen ++ [R]) ++ l)
      by (rewrite <- app_assoc; reflexivity).
    unfold keepBest at 2. cbn [captionSegmentOf CaptionSegment.analysis].
    destruct Hbest as (before & after & Hseen & Hbefore & Hafter).
    destruct (JSNumber.gtb (ScoredCaption.score R) (ScoredCaption.score best)) eqn:E;
      js_order; apply IH.
    + exists seen, []. split; [reflexivity|]. split; [|constructor].
      subst seen. apply Forall_app. split.
      * eapply Forall_impl; [|exact Hbefore]. intros; simpl in *; lra.
      * constructor; [exact E|].
        eapply Forall_impl; [|exact Hafter]. intros; simpl in *; lra.
    + exists before, (after ++ [R]). split; [|split].
      * subst seen. rewrite <- app_assoc. reflexivity.
      * exact Hbefore.
      * apply Forall_app. split; [exact Hafter|]. constructor; [exact E|constructor].
Qed.

Lemma enhanceAudioSegment_fused results A :
  fusedFromAudio results A (enhanceAudioSegment results A).
Proof.
  unfold fusedFromAudio, enhanceAudioSegment.
  rewrite findOverlapping_overlapping.
  destruct (overlapping A results) as [|R overlaps] eqn:E; cbn [map].
  - cbn. repeat split; try reflexivity. lra.
  - cbn [EnhancedSegment.start EnhancedSegment.end_ EnhancedSegment.score
         EnhancedSegment.type_ EnhancedSegment.combinedScore
         EnhancedSegment.captionText EnhancedSegment.aiAnalysis].
    repeat split.
    + rewrite reduce_sum. unfold mean.
      rewrite <- (map_cons captionSegmentOf), length_map, map_map.
      cbn [CaptionSegment.analysis captionSegmentOf]. 
      change (map (fun x => ScoredCaption.score x) (R :: overlaps))
        with (map ScoredCaption.score (R :: overlaps)).
      rewrite <- (map_cons ScoredCaption.score), (length_map ScoredCaption.score).
      rewrite Qplus_0_l.
      generalize (total (map ScoredCaption.score (R :: overlaps))
                  / JSNumber.ofNat (length (R :: overlaps))).
      intro avg. lra.
    + rewrite map_map. reflexivity.
    + eexists. split; [reflexivity|].
      change (fold_left _ (captionSegmentOf R :: map captionSegmentOf overlaps)
                        (captionSegmentOf R))
        with (fold_left keepBest (map captionSegmentOf overlaps)
                        (keepBest (captionSegmentOf R) (captionSegmentOf R))).
      assert (Hsame : keepBest (captionSegmentOf R) (captionSegmentOf R)
                      = captionSegmentOf R).
      { unfold keepBest. destruct (JSNumber.gtb _ _); reflexivity. }
      rewrite Hsame.
      apply (reduce_best_firstMaximum overlaps [R] R).
      exists [], []. repeat split; constructor.
Qed.

Lemma segmentsOverlap_sym a b : segmentsOverlap a b = segmentsOverlap b a.
Proof. unfold segmentsOverlap. apply andb_comm. Qed.

(** The overlap test is the half-open one. *)
Lemma segmentsOverlap_iff a b :
  segmentsOverlap a b = true
  <-> Span.start a < Span.end_ b /\ Span.start b < Span.end_ a.
Proof.
  unfold segmentsOverlap. rewrite andb_true_iff, !ltb_lt. reflexivity.
Qed.

Example touching_spans_do_not_overlap :
  segmentsOverlap (Span.mk 0 10) (Span.mk 10 20) = false
  /\ segmentsOverlap (Span.mk 0 10) (Span.mk 9 20) = true.
Proof. split; reflexivity. Qed.

Lemma hasOverlap_false enhanced R :
  hasOverlap enhanced (captionSegmentOf R) = false
  <-> Forall (fun F => segmentsOverlap (fusedSpan F) (sourceSpan R) = false) enhanced.
Proof.
  unfold hasOverlap. induction enhanced as [|F enhanced IH]; simpl.
  - split; [constructor|reflexivity].
  - change {| Span.start := CaptionSegment.start (captionSegmentOf R);
              Span.end_ := CaptionSegment.end_ (captionSegmentOf R) |}
      with (sourceSpan R) in *.
    change {| Span.start := EnhancedSegment.start F;
              Span.end_ := EnhancedSegment.end_ F |}
      with (fusedSpan F).
    rewrite orb_false_iff, IH. split.
    + intros [H1 H2]. constructor; assumption.
    + intro H. inversion H; subst. split; assumption.
Qed.

(** The test of [captionStep] decides [orphanAgainst]. *)
Lemma captionStep_emit enhanced R :
  orphanAgainst enhanced R ->
  captionStep enhanced R = enhanced ++ [captionOnlySegment R].
Proof.
  intros [Hscore Hfree]. unfold captionStep.
  apply ltb_ge in Hscore. rewrite Hscore.
  apply hasOverlap_false in Hfree. rewrite Hfree. reflexivity.
Qed.

Lemma captionStep_skip enhanced R :
  ~ orphanAgainst enhanced R -> captionStep enhanced R = enhanced.
Proof.
  intro Hnot. unfold captionStep.
  destruct (JSNumber.ltb (ScoredCaption.score R) (7 # 10)) eqn:Escore; [reflexivity|].
  destruct (hasOverlap enhanced (captionSegmentOf R)) eqn:Eover; [reflexivity|].
  exfalso. apply Hnot. split.
  - apply ltb_ge. exact Escore.
  - apply hasOverlap_false. exact Eover.
Qed.

Lemma orphanAgainst_dec enhanced R :
  orphanAgainst enhanced R \/ ~ orphanAgainst enhanced R.
Proof.
  destruct (JSNumber.ltb (ScoredCaption.score R) (7 # 10)) eqn:Escore.
  - right. intros [Hscore _]. apply ltb_ge in Hscore. congruence.
  - destruct (hasOverlap enhanced (captionSegmentOf R)) eqn:Eover.
    + right. intros [_ Hfree]. apply hasOverlap_false in Hfree. congruence.
    + left. split; [apply ltb_ge|apply hasOverlap_false]; assumption.
Qed.

Lemma captionOnlySegment_fused R : fusedFromOrphan R (captionOnlySegment R).
Proof.
  unfold fusedFromOrphan, captionOnlySegment. cbn. repeat split; try reflexivity. lra.
Qed.

Lemma captionLoop_orphanPass results :
  forall enhanced, orphanPass enhanced results (captionLoop results enhanced).
Proof.
  unfold captionLoop.
  induction results as [|R results IH]; intro enhanced; simpl.
  - constructor.
  - destruct (orphanAgainst_dec enhanced R) as [Hyes|Hno].
    + rewrite (captionStep_emit _ _ Hyes).
      eapply orphanPass_emit;
        [exact Hyes|apply captionOnlySegment_fused|apply IH].
    + rewrite (captionStep_skip _ _ Hno).
      apply orphanPass_skip; [exact Hno|apply IH].
Qed.

(** What the second loop appends: segments of high-scoring results, none
    overlapping what was there before, and none overlapping another. *)
Lemma captionLoop_appends results :
  forall enhanced,
  exists orphans,
    captionLoop results enhanced = enhanced ++ orphans
    /\ Forall (fun F => exists R, In R results
                                  /\ 7 # 10 <= ScoredCaption.score R
                                  /\ F = captionOnlySegment R) orphans
    /\ Forall (fun F => Forall (fun E => segmentsOverlap (fusedSpan E) (fusedSpan F) = false)
                               enhanced) orphans
    /\ ForallOrdPairs (fun F1 F2 => segmentsOverlap (fusedSpan F1) (fusedSpan F2) = false)
                      orphans.
Proof.
  unfold captionLoop.
  induction results as [|R results IH]; intro enhanced; simpl.
  - exists []. rewrite app_nil_r. repeat split; constructor.
  - destruct (orphanAgainst_dec enhanced R) as [Hyes|Hno].
    + rewrite (captionStep_emit _ _ Hyes).
      destruct (IH (enhanced ++ [captionOnlySegment R]))
        as (orphans & Heq & Hfrom & Hfree & Hpairs).
      exists (captionOnlySegment R :: orphans).
      rewrite Heq, <- app_assoc. split; [reflexivity|]. split; [|split].
      * constructor.
        -- exists R. destruct Hyes as [Hscore _]. auto.
        -- eapply Forall_impl; [|exact Hfrom].
           intros F (R' & Hin & Hscore & HF). exists R'. auto.
      * constructor.
        -- destruct Hyes as [_ Hyes]. exact Hyes.
        -- eapply Forall_impl; [|exact Hfree].
           intros F HF. apply Forall_app in HF. tauto.
      * constructor; [|exact Hpairs].
        eapply Forall_impl; [|exact Hfree].
        intros F HF. apply Forall_app in HF. destruct HF as [_ HF].
        inversion HF; subst. assumption.
    + rewrite (captionStep_skip _ _ Hno).
      destruct (IH enhanced) as (orphans & Heq & Hfrom & Hfree & Hpairs).
      exists orphans. split; [exact Heq|]. split; [|split; assumption].
      eapply Forall_impl; [|exact Hfrom].
      intros F (R' & Hin & Hscore & HF). exists R'. auto.
Qed.

Lemma enhancedBeforeSort_split audio results :
  enhancedBeforeSort audio results
  = map (enhanceAudioSegment results) audio ++ orphanSegments audio results.
Proof.
  unfold orphanSegments, enhancedBeforeSort.
  rewrite audioLoop_map. simpl.
  destruct (captionLoop_appends results (map (enhanceAudioSegment results) audio))
    as (orphans & Heq & _).
  rewrite Heq. f_equal.
  rewrite <- (length_map (enhanceAudioSegment results) audio) at 1.
  rewrite skipn_app, skipn_all, Nat.sub_diag. reflexivity.
Qed.

Lemma orphanSegments_facts audio results :
  Forall (fun F => exists R, In R results
                             /\ 7 # 10 <= ScoredCaption.score R
                             /\ F = captionOnlySegment R)
         (orphanSegments audio results)
  /\ ForallOrdPairs (fun F1 F2 => segmentsOverlap (fusedSpan F1) (fusedSpan F2) = false)
                    (orphanSegments audio results).
Proof.
  pose proof (enhancedBeforeSort_split audio results) as Hsplit.
  unfold enhancedBeforeSort in Hsplit. rewrite audioLoop_map in Hsplit. simpl in Hsplit.
  destruct (captionLoop_appends results (map (enhanceAudioSegment results) audio))
    as (orphans & Heq & Hfrom & _ & Hpairs).
  rewrite Heq in Hsplit. apply app_inv_head in Hsplit. subst orphans.
  split; assumption.
Qed.

Lemma ForallOrdPairs_nth {A} (R : A -> A -> Prop) l :
  ForallOrdPairs R l ->
  forall i j x y, (i < j)%nat -> nth_error l i = Some x -> nth_error l j = Some y -> R x y.
Proof.
  induction 1 as [|a l Ha Hl IH]; intros i j x y Hij Hi Hj.
  - destruct i; discriminate.
  - destruct j as [|j]; [lia|]. simpl in Hj.
    destruct i as [|i]; simpl in Hi.
    + injection Hi as <-. rewrite Forall_forall in Ha.
      apply Ha. eapply nth_error_In. exact Hj.
    + apply (IH i j); [lia|assumption|assumption].
Qed.

(** The test of the code is the half-open one, stated on the four bounds. *)
Lemma segmentsOverlap_halfOpen a b :
  segmentsOverlap a b = true
  <-> halfOpenOverlap (Span.start a) (Span.end_ a) (Span.start b) (Span.end_ b).
Proof. unfold halfOpenOverlap. apply segmentsOverlap_iff. Qed.

Lemma filter_keptInOrder {A} (f : A -> bool) (P : A -> Prop) l :
  (forall x, f x = true <-> P x) -> keptInOrder P l (filter f l).
Proof.
  intro Hf. induction l as [|x l IH]; simpl; [constructor|].
  destruct (f x) eqn:E.
  - apply keptInOrder_keep; [apply Hf; exact E|exact IH].
  - apply keptInOrder_drop; [|exact IH].
    intro HP. apply Hf in HP. congruence.
Qed.

Lemma overlapping_keptInOrder A results :
  keptInOrder (overlapsAudio A) results (overlapping A results).
Proof.
  unfold overlapping. apply filter_keptInOrder.
  intro R. apply (segmentsOverlap_halfOpen (audioSpan A) (sourceSpan R)).
Qed.

Lemma enhanceAudioSegment_fusedAudio results A :
  fusedAudioSegment results A (enhanceAudioSegment results A).
Proof.
  destruct (enhanceAudioSegment_fused results A)
    as (Hstart & Hend & Hscore & Htype & Hrest).
  exists (overlapping A results).
  split; [apply overlapping_keptInOrder|].
  repeat (split; [assumption|]).
  destruct (overlapping A results); exact Hrest.
Qed.

Lemma orphanAgainst_candidate fused R :
  orphanAgainst fused R <-> orphanCandidate fused R.
Proof.
  unfold orphanAgainst, orphanCandidate.
  assert (Hone : forall F,
             segmentsOverlap (fusedSpan F) (sourceSpan R) = false
             <-> ~ overlapsFused F R).
  { intro F. unfold overlapsFused.
    pose proof (segmentsOverlap_halfOpen (fusedSpan F) (sourceSpan R)) as H.
    simpl in H. rewrite <- H.
    destruct (segmentsOverlap (fusedSpan F) (sourceSpan R)); split;
      congruence. }
  split; intros [Hscore Hfree]; (split; [exact Hscore|]);
    (eapply Forall_impl; [|exact Hfree]); intros F HF; apply Hone; exact HF.
Qed.

Lemma fusedFromOrphan_segment R F : fusedFromOrphan R F -> orphanSegmentOf R F.
Proof.
  unfold fusedFromOrphan, orphanSegmentOf, fusedSpan, sourceSpan.
  intros (Hspan & Hscore & Htype & Hcombined).
  injection Hspan as Hstart Hend. repeat split; assumption.
Qed.

Lemma orphanPass_run fused results final :
  orphanPass fused results final -> orphanRun fused results final.
Proof.
  induction 1 as [fused|fused R rest F final Hyes HF _ IH|fused R rest final Hno _ IH].
  - constructor.
  - eapply orphanRun_emit;
      [apply orphanAgainst_candidate; exact Hyes
      |apply fusedFromOrphan_segment; exact HF|exact IH].
  - apply orphanRun_skip; [|exact IH].
    intro H. apply Hno. apply orphanAgainst_candidate. exact H.
Qed.

Lemma captionLoop_orphanRun results enhanced :
  orphanRun enhanced results (captionLoop results enhanced).
Proof. apply orphanPass_run, captionLoop_orphanPass. Qed.

End FusionFacts.

(** Scenario B: 0.4 x 0.75 + 0.6 x 0.9 = 0.84. *)
Example scenarioB_combinedScore :
  map EnhancedSegment.combinedScore
      (EnhancedViralDetector.combineAudioAndCaptionAnalysis
         [scenarioB_audio] [scenarioB_result])
  = [ (75 # 100) * (4 # 10) + (0 + (9 # 10)) / 1 * (6 # 10) ]
  /\ (75 # 100) * (4 # 10) + (0 + (9 # 10)) / 1 * (6 # 10) == 84 # 100.
Proof. split; reflexivity. Qed.

(** Scenario C: an orphan of score 0.85 is emitted with score 0.5 and
    combined score 0.8 x 0.85 = 0.68. *)
Example scenarioC_orphan :
  map (fun F => (EnhancedSegment.score F, EnhancedSegment.combinedScore F))
      (EnhancedViralDetector.combineAudioAndCaptionAnalysis [] [scenarioC_result])
  = [ (5 # 10, (85 # 100) * (8 # 10)) ]
  /\ (85 # 100) * (8 # 10) == 68 # 100.
Proof. split; reflexivity. Qed.

(** Scenario D: with no overlapping relevance result the combined score is
    0.7 times the acoustic score and nothing is attached. *)
Example scenarioD_no_overlap :
  EnhancedViralDetector.combineAudioAndCaptionAnalysis [scenarioB_audio] []
  = [ EnhancedSegment.mk 100 115 (75 # 100) Segment.speech None None
                         ((75 # 100) * (7 # 10)) ].
Proof. reflexivity. Qed.

(** C1: [combineAudioAndCaptionAnalysis] emits, for each acoustic segment
    [A], one fused segment.  With the relevance results whose source
    interval [[start, start + duration)] overlaps [[A.start, A.end)], that
    is [A.start < start + duration] and [start < A.end], taken in input
    order: when there is at least one, the combined score is 0.4 times the
    acoustic score plus 0.6 times their mean score, the caption text is
    their texts joined by spaces and the attached analysis is the first of
    maximum score; when there is none, the combined score is 0.7 times the
    acoustic score and nothing is attached.  Then each relevance result of
    score at least 0.7 whose source interval overlaps no fused segment
    produced so far is emitted with score 0.5, type speech and combined
    score 0.8 times its score.  The output is these segments sorted by
    combined score, descending. *)
Theorem fuse_functional_correctness audio results :
  exists fusedAudio beforeSort,
    Forall2 (fusedAudioSegment results) audio fusedAudio
    /\ orphanRun fusedAudio results beforeSort
    /\ Permutation beforeSort
                   (EnhancedViralDetector.combineAudioAndCaptionAnalysis audio results)
    /\ StronglySorted (keyGe EnhancedSegment.combinedScore)
                      (EnhancedViralDetector.combineAudioAndCaptionAnalysis audio results).
Proof.
  exists (map (EnhancedViralDetector.enhanceAudioSegment results) audio),
         (EnhancedViralDetector.enhancedBeforeSort audio results).
  split; [|split; [|split]].
  - induction audio as [|A audio IH]; simpl; constructor.
    + apply enhanceAudioSegment_fusedAudio.
    + exact IH.
  - unfold EnhancedViralDetector.enhancedBeforeSort.
    rewrite audioLoop_map. simpl. apply captionLoop_orphanRun.
  - apply sort_perm.
  - apply sort_sorted.
Qed.

(** C2 (as stated): no input makes the engine emit two orphans whose source
    intervals [[s1, e1)] and [[s2, e2)] overlap ([s1 < e2] and [s2 < e1]);
    on two overlapping results of score 0.9 and no acoustic segment, only
    the first is emitted. *)
Lemma no_overlapping_orphans_emitted :
  EnhancedViralDetector.combineAudioAndCaptionAnalysis [] overlappingOrphans
  = [ EnhancedViralDetector.captionOnlySegment
        (ScoredCaption.mk (AnalysisResult.mk (9 # 10) [] [] [] (JStr ""))
                          (Caption.mk 0 10 "x")) ]
  /\ ~ exists audio results i j R1 R2,
         i <> j
         /\ nth_error (orphanSegments audio results) i
            = Some (EnhancedViralDetector.captionOnlySegment R1)
         /\ nth_error (orphanSegments audio results) j
            = Some (EnhancedViralDetector.captionOnlySegment R2)
         /\ 7 # 10 <= ScoredCaption.score R1
         /\ 7 # 10 <= ScoredCaption.score R2
         /\ halfOpenOverlap
              (Caption.start (ScoredCaption.caption R1))
              (Caption.start (ScoredCaption.caption R1)
               + Caption.duration (ScoredCaption.caption R1))
              (Caption.start (ScoredCaption.caption R2))
              (Caption.start (ScoredCaption.caption R2)
               + Caption.duration (ScoredCaption.caption R2)).
Proof.
  split; [vm_compute; reflexivity|].
  intros (audio & results & i & j & R1 & R2 & Hij & Hi & Hj & _ & _ & Hspans).
  assert (Hover : EnhancedViralDetector.segmentsOverlap (sourceSpan R1) (sourceSpan R2)
                  = true)
    by (apply segmentsOverlap_halfOpen; exact Hspans).
  destruct (orphanSegments_facts audio results) as [_ Hpairs].
  destruct (Nat.lt_total i j) as [Hlt|[Heq|Hgt]]; [|contradiction|].
  - pose proof (ForallOrdPairs_nth _ _ Hpairs i j _ _ Hlt Hi Hj) as Hfree.
    change (EnhancedViralDetector.segmentsOverlap (sourceSpan R1) (sourceSpan R2) = false)
      in Hfree.
    congruence.
  - pose proof (ForallOrdPairs_nth _ _ Hpairs j i _ _ Hgt Hj Hi) as Hfree.
    cbv beta in Hfree. rewrite segmentsOverlap_sym in Hfree.
    change (EnhancedViralDetector.segmentsOverlap (sourceSpan R1) (sourceSpan R2) = false)
      in Hfree.
    congruence.
Qed.

(** Of three results where the second overlaps both others, the first and
    the third are emitted and the second is not: a result is blocked by an
    orphan emitted before it, and a blocked result blocks nothing. *)
Example chainedOrphans_emitted :
  map EnhancedSegment.captionText
      (EnhancedViralDetector.combineAudioAndCaptionAnalysis [] chainedOrphans)
  = [Some "x"; Some "z"].
Proof. vm_compute. reflexivity. Qed.

(** C2 (amended): for every input, the orphan step emits a relevance result
    exactly when its score is at least 0.7 and its source interval overlaps
    no fused segment produced so far, the orphans emitted earlier in the
    same pass included.  Hence the emitted orphans come from relevance
    results of score at least 0.7 and no two of them overlap: of two
    segments [F1], [F2] emitted as orphans, never both [F1.start < F2.end]
    and [F2.start < F1.end]. *)
Theorem orphans_never_overlap audio results :
  EnhancedViralDetector.enhancedBeforeSort audio results
  = map (EnhancedViralDetector.enhanceAudioSegment results) audio
    ++ orphanSegments audio results
  /\ Forall (fun F => exists R, In R results
                                /\ 7 # 10 <= ScoredCaption.score R
                                /\ F = EnhancedViralDetector.captionOnlySegment R)
            (orphanSegments audio results)
  /\ ForallOrdPairs
       (fun F1 F2 =>
          EnhancedViralDetector.segmentsOverlap (fusedSpan F1) (fusedSpan F2) = false)
       (orphanSegments audio results)
  /\ orphanRun (map (EnhancedViralDetector.enhanceAudioSegment results) audio)
               results
               (EnhancedViralDetector.enhancedBeforeSort audio results)
  /\ ForallOrdPairs
       (fun F1 F2 =>
          ~ halfOpenOverlap (EnhancedSegment.start F1) (EnhancedSegment.end_ F1)
                            (EnhancedSegment.start F2) (EnhancedSegment.end_ F2))
       (orphanSegments audio results).
Proof.
  split; [apply enhancedBeforeSort_split|].
  destruct (orphanSegments_facts audio results) as [Hfrom Hpairs].
  split; [exact Hfrom|]. split; [exact Hpairs|]. split.
  - unfold EnhancedViralDetector.enhancedBeforeSort.
    rewrite audioLoop_map. simpl. apply captionLoop_orphanRun.
  - generalize (orphanSegments audio results) Hpairs. clear.
    intros l Hpairs.
    induction Hpairs as [|F l HF _ IH]; constructor; [|exact IH].
    eapply Forall_impl; [|exact HF].
    intros F2 Hfree Hover.
    apply (segmentsOverlap_halfOpen (fusedSpan F) (fusedSpan F2)) in Hover.
    congruence.
Qed.

(** C10: the output holds exactly one fused segment per acoustic input,
    with the start, end, type (and score) of that input, next to the
    segments emitted for orphans; acoustic inputs are neither dropped nor
    merged nor clipped, so the output is at least as long as the acoustic
    input. *)
Theorem fuse_keeps_acoustic_segments audio results :
  Permutation
    (EnhancedViralDetector.combineAudioAndCaptionAnalysis audio results)
    (map (EnhancedViralDetector.enhanceAudioSegment results) audio
     ++ orphanSegments audio results)
  /\ Forall2 (fun A F =>
                EnhancedSegment.start F = Segment.start A
                /\ EnhancedSegment.end_ F = Segment.end_ A
                /\ EnhancedSegment.type_ F = Segment.type_ A
                /\ EnhancedSegment.score F = Segment.score A)
             audio (map (EnhancedViralDetector.enhanceAudioSegment results) audio)
  /\ Forall (fun F => exists R, In R results
                                /\ F = EnhancedViralDetector.captionOnlySegment R)
            (orphanSegments audio results)
  /\ (length audio
      <= length (EnhancedViralDetector.combineAudioAndCaptionAnalysis audio results))%nat.
Proof.
  split; [|split; [|split]].
  - unfold EnhancedViralDetector.combineAudioAndCaptionAnalysis.
    rewrite <- enhancedBeforeSort_split. apply Permutation_sym, sort_perm.
  - induction audio as [|A audio IH]; simpl; constructor; [|exact IH].
    unfold EnhancedViralDetector.enhanceAudioSegment.
    destruct (EnhancedViralDetector.findOverlappingCaptions _ _); cbn; auto.
  - destruct (orphanSegments_facts audio results) as [Hfrom _].
    eapply Forall_impl; [|exact Hfrom].
    intros F (R & Hin & _ & HF). exists R. auto.
  - unfold EnhancedViralDetector.combineAudioAndCaptionAnalysis.
    rewrite sort_length, enhancedBeforeSort_split, length_app, length_map. lia.
Qed.

(** ** Acoustic segment detector: [detectViralSegments] *)

Section DetectorFacts.
Import ViralContentDetector.
Variable options : DetectionOptions.

Lemma closeSegment_inRange segments current endTime :
  Forall (durationInRange options) segments ->
  Forall (durationInRange options) (closeSegment options segments current endTime).
Proof.
  intro Hsegs. unfold closeSegment.
  destruct (withinDuration options (endTime - openStart current)) eqn:E; [|exact Hsegs].
  apply Forall_app. split; [exact Hsegs|].
  constructor; [|constructor].
  unfold withinDuration in E. js_order.
  unfold durationInRange. simpl. split; assumption.
Qed.

Lemma analyzeLoop_inRange n audioDuration energyLevels :
  forall i segments current,
    Forall (durationInRange options) segments ->
    Forall (durationInRange options)
           (fst (analyzeLoop options n audioDuration i energyLevels segments current)).
Proof.
  induction energyLevels as [|energy rest IH]; intros i segments current Hsegs.
  - exact Hsegs.
  - cbn [analyzeLoop].
    destruct (JSNumber.gtb energy (DetectionOptions.energyThreshold options));
      destruct current as [current|]; apply IH; try exact Hsegs.
    apply closeSegment_inRange. exact Hsegs.
Qed.

Lemma segmentsOfEnergy_inRange audioDuration energyLevels :
  Forall (durationInRange options) (segmentsOfEnergy options audioDuration energyLevels).
Proof.
  unfold segmentsOfEnergy.
  pose proof (analyzeLoop_inRange (length energyLevels) audioDuration energyLevels
                0%nat [] None (Forall_nil _)) as H.
  destruct (analyzeLoop _ _ _ _ _ _ _) as [segments current]. simpl in H.
  destruct current as [current|]; [|exact H].
  apply closeSegment_inRange. exact H.
Qed.

Lemma scoreSegment_keeps segment :
  Segment.start (scoreSegment options segment) = Segment.start segment
  /\ Segment.end_ (scoreSegment options segment) = Segment.end_ segment
  /\ Segment.type_ (scoreSegment options segment) = Segment.type_ segment.
Proof. repeat split. Qed.

Lemma scoreSegments_inRange segments :
  Forall (durationInRange options) segments ->
  Forall (durationInRange options) (scoreSegments options segments).
Proof.
  intro H. unfold scoreSegments. apply sort_Forall.
  apply Forall_map. eapply Forall_impl; [|exact H].
  intros s Hs. exact Hs.
Qed.

(** The [try ... catch] of [detectViralSegments] turns every failure into
    the empty list. *)
Lemma detect_cases media :
  detectViralSegments options media = Normal []
  \/ exists audioDuration,
       getAudioDuration media = Normal audioDuration
       /\ detectViralSegments options media
          = Normal (scoreSegments options
                      (segmentsOfEnergy options audioDuration (analyzeEnergyLevels media))).
Proof.
  unfold detectViralSegments, analyzeAudio.
  destruct (existsSync media); [|left; reflexivity]. simpl.
  destruct (extractAudio media); [|left; reflexivity]. simpl.
  destruct (getAudioDuration media) as [audioDuration|]; [|left; reflexivity]. simpl.
  destruct (removeAudio media); [|left; reflexivity]. simpl.
  right. exists audioDuration. split; reflexivity.
Qed.

(** With zero duration every candidate is empty, so a positive minimum
    duration rejects all of them. *)
Lemma closeSegment_zero current endTime :
  0 < DetectionOptions.minSegmentDuration options ->
  endTime == 0 -> openStart current == 0 ->
  closeSegment options [] current endTime = [].
Proof.
  intros Hmin Hend Hstart. unfold closeSegment, withinDuration.
  replace (JSNumber.geb (endTime - openStart current)
                        (DetectionOptions.minSegmentDuration options))
    with false; [reflexivity|].
  symmetry. apply geb_lt. lra.
Qed.

Lemma analyzeLoop_zero n audioDuration energyLevels :
  0 < DetectionOptions.minSegmentDuration options ->
  audioDuration == 0 ->
  forall i current,
    match current with Some c => openStart c == 0 | None => True end ->
    let '(segments, current') :=
      analyzeLoop options n audioDuration i energyLevels [] current in
    segments = []
    /\ match current' with Some c => openStart c == 0 | None => True end.
Proof.
  intros Hmin Hzero.
  induction energyLevels as [|energy rest IH]; intros i current Hcur.
  - simpl. split; [reflexivity|exact Hcur].
  - cbn [analyzeLoop].
    assert (Htime : JSNumber.ofNat i / JSNumber.ofNat n * audioDuration == 0)
      by (rewrite Hzero; apply Qmult_0_r).
    destruct (JSNumber.gtb energy (DetectionOptions.energyThreshold options));
      destruct current as [current|].
    + apply IH. exact Hcur.
    + apply IH. simpl. exact Htime.
    + rewrite closeSegment_zero by assumption. apply IH. exact I.
    + apply IH. exact I.
Qed.

Lemma segmentsOfEnergy_zero audioDuration energyLevels :
  0 < DetectionOptions.minSegmentDuration options ->
  audioDuration == 0 ->
  segmentsOfEnergy options audioDuration energyLevels = [].
Proof.
  intros Hmin Hzero. unfold segmentsOfEnergy.
  pose proof (analyzeLoop_zero (length energyLevels) audioDuration energyLevels
                Hmin Hzero 0%nat None I) as H.
  destruct (analyzeLoop _ _ _ _ _ _ _) as [segments current].
  destruct H as [-> Hcur].
  destruct current as [current|]; [|reflexivity].
  apply closeSegment_zero; assumption.
Qed.

End DetectorFacts.

(** With the default bounds of 5 and 60 seconds, the burst of 80 seconds is
    discarded and the one closed at the end of the audio is kept. *)
Example tenSamples_segments :
  map (fun s => (Qred (Segment.start s), Qred (Segment.end_ s)))
      (ViralContentDetector.segmentsOfEnergy defaultOptions 200 tenSamples)
  = [ (0, 20); (140, 200) ].
Proof. vm_compute. reflexivity. Qed.

(** C3 (as stated): [detectViralSegments] does not fail on an unreadable
    input nor on one of zero duration; in both cases it returns the empty
    list as a normal value. *)
Lemma detect_returns_on_bad_input :
  unreadable missingFile
  /\ ViralContentDetector.detectViralSegments defaultOptions missingFile = Normal []
  /\ ~ throws (ViralContentDetector.detectViralSegments defaultOptions missingFile)
  /\ zeroDuration emptyAudio
  /\ ViralContentDetector.detectViralSegments defaultOptions emptyAudio = Normal []
  /\ ~ throws (ViralContentDetector.detectViralSegments defaultOptions emptyAudio).
Proof.
  split; [left; reflexivity|].
  split; [reflexivity|].
  split; [intros [e He]; vm_compute in He; discriminate|].
  split; [exists (Some 0); split; reflexivity|].
  split; [vm_compute; reflexivity|].
  intros [e He]; vm_compute in He; discriminate.
Qed.

(** C3 (amended): whenever the audio input is unreadable, or has zero
    duration (with a positive minimum segment duration), [detectViralSegments]
    returns the empty list as a normal value: its [try ... catch] lets no
    error reach the caller. *)
Theorem detect_bad_input_gives_empty options media :
  unreadable media
  \/ (zeroDuration media /\ 0 < DetectionOptions.minSegmentDuration options) ->
  ViralContentDetector.detectViralSegments options media = Normal [].
Proof.
  intros [Hbad|[(metadata & Hprobe & Hzero) Hmin]].
  - unfold ViralContentDetector.detectViralSegments.
    destruct Hbad as [Hmissing|[[e He]|[e He]]].
    + rewrite Hmissing. reflexivity.
    + rewrite He. destruct (ViralContentDetector.existsSync media); reflexivity.
    + unfold ViralContentDetector.analyzeAudio, ViralContentDetector.getAudioDuration.
      rewrite He.
      destruct (ViralContentDetector.existsSync media); [|reflexivity].
      destruct (ViralContentDetector.extractAudio media); reflexivity.
  - destruct (detect_cases options media) as [Hempty|(audioDuration & Hduration & Hout)];
      [exact Hempty|].
    rewrite Hout.
    unfold ViralContentDetector.getAudioDuration in Hduration.
    rewrite Hprobe in Hduration. simpl in Hduration.
    injection Hduration as <-.
    rewrite segmentsOfEnergy_zero by assumption. reflexivity.
Qed.

(** Witness for C3: a missing file, and a readable file of zero duration,
    both with the default options. *)
Lemma detect_bad_input_gives_empty_witness :
  unreadable missingFile
  /\ ViralContentDetector.detectViralSegments defaultOptions missingFile = Normal []
  /\ zeroDuration emptyAudio
  /\ 0 < DetectionOptions.minSegmentDuration defaultOptions
  /\ ViralContentDetector.detectViralSegments defaultOptions emptyAudio = Normal [].
Proof.
  assert (Hmissing : unreadable missingFile) by (left; reflexivity).
  assert (Hzero : zeroDuration emptyAudio)
    by (exists (Some 0); split; reflexivity).
  assert (Hmin : 0 < DetectionOptions.minSegmentDuration defaultOptions)
    by reflexivity.
  split; [exact Hmissing|].
  split; [exact (detect_bad_input_gives_empty defaultOptions missingFile
                   (or_introl Hmissing))|].
  split; [exact Hzero|]. split; [exact Hmin|].
  exact (detect_bad_input_gives_empty defaultOptions emptyAudio
           (or_intror (conj Hzero Hmin))).
Defined.

(** C6: every segment returned by [detectViralSegments] has a duration
    between [minSegmentDuration] and [maxSegmentDuration].  The candidates
    built from any duration and any energy levels are all within the range,
    the one closed at the end of the audio included; scoring changes no
    start, end or type and the scored array is a permutation of the scored
    candidates, so none is dropped and none is added. *)
Theorem detect_segments_within_duration options media :
  (forall audioDuration energyLevels,
      Forall (durationInRange options)
             (ViralContentDetector.segmentsOfEnergy options audioDuration energyLevels))
  /\ (forall segments,
         Permutation (map (ViralContentDetector.scoreSegment options) segments)
                     (ViralContentDetector.scoreSegments options segments)
         /\ Forall2 (fun segment scored =>
                       Segment.start scored = Segment.start segment
                       /\ Segment.end_ scored = Segment.end_ segment
                       /\ Segment.type_ scored = Segment.type_ segment)
                    segments (map (ViralContentDetector.scoreSegment options) segments))
  /\ exists returned,
       ViralContentDetector.detectViralSegments options media = Normal returned
       /\ Forall (durationInRange options) returned.
Proof.
  split; [|split].
  - intros. apply segmentsOfEnergy_inRange.
  - intro segments. split; [apply sort_perm|].
    induction segments as [|s segments IH]; simpl; constructor; [|exact IH].
    apply scoreSegment_keeps.
  - destruct (detect_cases options media) as [Hempty|(audioDuration & _ & Hout)].
    + exists []. split; [exact Hempty|constructor].
    + eexists. split; [exact Hout|].
      apply scoreSegments_inRange, segmentsOfEnergy_inRange.
Qed.

(** ** Transcript relevance scorer: [CaptionAnalyzer] *)

Section ScorerFacts.
Import CaptionAnalyzer.
Variable JSON_parse : string -> option jsval.
Variable parseFloatString : string -> option Q.

Lemma parseAnalysisResult_cases responseText :
  (unparseable JSON_parse parseFloatString responseText
   /\ parseAnalysisResult JSON_parse parseFloatString responseText = Normal parseFailure)
  \/ (exists result r,
         decodeResponse JSON_parse responseText = Normal result
         /\ readResult parseFloatString result = Normal r
         /\ parseAnalysisResult JSON_parse parseFloatString responseText = Normal r).
Proof.
  unfold parseAnalysisResult, unparseable.
  destruct (decodeResponse JSON_parse responseText) as [result|e] eqn:Hdecode; simpl.
  - destruct (readResult parseFloatString result) as [r|e] eqn:Hread; simpl.
    + right. exists result, r. auto.
    + left. split; [exists e|]; reflexivity.
  - left. split; [exists e|]; reflexivity.
Qed.

Lemma parseAnalysisResult_returns responseText :
  returns (parseAnalysisResult JSON_parse parseFloatString responseText).
Proof.
  destruct (parseAnalysisResult_cases responseText) as [[_ H]|(result & r & _ & _ & H)];
    rewrite H; eexists; reflexivity.
Qed.


Lemma analyzeViralPotential_returns post captionText :
  analyzeViralPotential JSON_parse parseFloatString post captionText
  = Normal (analysisOf JSON_parse parseFloatString post captionText).
Proof.
  unfold analysisOf.
  destruct (analyzeViralPotential JSON_parse parseFloatString post captionText)
    as [r|e] eqn:H; [reflexivity|].
  exfalso. unfold analyzeViralPotential in H.
  destruct (post captionText) as [reason|data]; [discriminate|].
  destruct (messageContent data) as [content|]; simpl in H; [|discriminate].
  destruct (parseAnalysisResult_returns content) as [r Hr].
  rewrite Hr in H. discriminate.
Qed.

Lemma analysisOf_failure post captionText :
  scoringFails JSON_parse parseFloatString (post captionText) ->
  analysisOf JSON_parse parseFloatString post captionText = analysisFailure
  \/ analysisOf JSON_parse parseFloatString post captionText = parseFailure.
Proof.
  unfold analysisOf, analyzeViralPotential.
  intros [Hrequest|(data & content & Hpost & Hcontent & Hparse)].
  - left. destruct (post captionText) as [reason|data]; [reflexivity|].
    destruct Hrequest as [e He]. rewrite He. reflexivity.
  - right. rewrite Hpost. rewrite Hcontent. simpl.
    destruct (parseAnalysisResult_cases content) as [[_ H]|(result & r & Hd & Hr & _)].
    + rewrite H. reflexivity.
    + exfalso. destruct Hparse as [e He]. rewrite Hd in He. simpl in He. congruence.
Qed.

Lemma failures_diagnosed :
  diagnosedFailure analysisFailure /\ diagnosedFailure parseFailure.
Proof.
  split; (split; [reflexivity|]); eexists; (split; [|reflexivity]); discriminate.
Qed.

Lemma mapFrom_split {A B} (f : nat -> A -> B) n :
  forall i l,
    JSArray.mapFrom f i (firstn n l) ++ JSArray.mapFrom f (i + n) (skipn n l)
    = JSArray.mapFrom f i l.
Proof.
  induction n as [|n IH]; intros i l.
  - simpl. rewrite Nat.add_0_r. reflexivity.
  - destruct l as [|x l]; [reflexivity|]. simpl.
    rewrite <- Nat.add_succ_comm. rewrite IH. reflexivity.
Qed.

Lemma batchPromises_all post batch :
  forall i,
    promiseAll (batchPromises JSON_parse parseFloatString post i batch)
    = Normal (JSArray.mapFrom (scoredCaptionOf JSON_parse parseFloatString post) i batch).
Proof.
  unfold batchPromises.
  induction batch as [|caption batch IH]; intro i; simpl; [reflexivity|].
  rewrite analyzeViralPotential_returns. simpl. rewrite IH. reflexivity.
Qed.

Lemma batchLoop_all post captions :
  forall n i results,
    (length captions - i <= n)%nat ->
    batchLoop JSON_parse parseFloatString post captions i results
    = Normal (results
              ++ JSArray.mapFrom (scoredCaptionOf JSON_parse parseFloatString post)
                                 i (skipn i captions)).
Proof.
  induction n as [|n IH]; intros i results Hn; simp batchLoop;
    destruct (lt_dec i (length captions)) as [Hlt|Hge]; simpl; try lia.
  - rewrite skipn_all2 by lia. simpl. rewrite app_nil_r. reflexivity.
  - rewrite batchPromises_all. simpl.
    rewrite IH by (unfold batchSize; lia).
    rewrite <- app_assoc. f_equal. f_equal.
    unfold JSArray.slice.
    replace (i + batchSize - i)%nat with batchSize by lia.
    rewrite <- (mapFrom_split _ batchSize i (skipn i captions)).
    rewrite skipn_skipn. rewrite (Nat.add_comm batchSize i). reflexivity.
  - rewrite skipn_all2 by lia. simpl. rewrite app_nil_r. reflexivity.
Qed.

End ScorerFacts.

(** C8: for every sequence of transcript segments and however the
    individual requests end, [analyzeMultipleSegments] returns: its result
    is the array of one scored caption per segment, sorted by score.  A
    scoring call that fails (rejected request, malformed response, content
    that cannot be parsed) still yields a result for its segment, with
    score 0 and one diagnostic reason; and the result for a segment depends
    on its own request only, so the others are unaffected. *)
Theorem scoring_failures_are_isolated
        (JSON_parse : string -> option jsval) (parseFloatString : string -> option Q)
        (post : nat -> string -> PostOutcome) (captions : list Caption) :
  CaptionAnalyzer.analyzeMultipleSegments JSON_parse parseFloatString post captions
  = Normal (JSArray.sort (JSArray.descending ScoredCaption.score)
              (JSArray.mapFrom (scoredCaptionOf JSON_parse parseFloatString post)
                               0 captions))
  /\ Permutation
       (JSArray.mapFrom (scoredCaptionOf JSON_parse parseFloatString post) 0 captions)
       (JSArray.sort (JSArray.descending ScoredCaption.score)
          (JSArray.mapFrom (scoredCaptionOf JSON_parse parseFloatString post)
                           0 captions))
  /\ (forall k caption,
         CaptionAnalyzer.analyzeViralPotential JSON_parse parseFloatString
                                               (post k) (Caption.text caption)
         = Normal (ScoredCaption.analysis
                     (scoredCaptionOf JSON_parse parseFloatString post k caption))
         /\ (scoringFails JSON_parse parseFloatString (post k (Caption.text caption)) ->
             diagnosedFailure
               (ScoredCaption.analysis
                  (scoredCaptionOf JSON_parse parseFloatString post k caption)))
         /\ (forall post',
                post' k (Caption.text caption) = post k (Caption.text caption) ->
                scoredCaptionOf JSON_parse parseFloatString post' k caption
                = scoredCaptionOf JSON_parse parseFloatString post k caption)).
Proof.
  split; [|split].
  - unfold CaptionAnalyzer.analyzeMultipleSegments.
    rewrite (batchLoop_all JSON_parse parseFloatString post captions
                           (length captions) 0 []) by lia.
    reflexivity.
  - apply sort_perm.
  - intros k caption. split; [|split].
    + apply analyzeViralPotential_returns.
    + intro Hfails. simpl.
      destruct (analysisOf_failure JSON_parse parseFloatString (post k) _ Hfails) as [H|H];
        rewrite H; apply failures_diagnosed.
    + intros post' Hsame. unfold scoredCaptionOf. f_equal.
      unfold analysisOf, CaptionAnalyzer.analyzeViralPotential.
      rewrite Hsame. reflexivity.
Qed.

(** Witness for C8: of three requests the first is rejected and the second
    answers text that is not JSON; both segments get a zero-score result
    with a diagnostic reason, and the third keeps its score of 0.9. *)
Lemma scoring_failures_are_isolated_witness :
  scoringFails rejectJSON rejectNumber (threeCalls 0 "a")
  /\ scoringFails rejectJSON rejectNumber (threeCalls 1 "b")
  /\ diagnosedFailure
       (ScoredCaption.analysis
          (scoredCaptionOf rejectJSON rejectNumber threeCalls 0 (Caption.mk 0 15 "a")))
  /\ diagnosedFailure
       (ScoredCaption.analysis
          (scoredCaptionOf rejectJSON rejectNumber threeCalls 1 (Caption.mk 15 15 "b")))
  /\ CaptionAnalyzer.analyzeMultipleSegments rejectJSON rejectNumber
                                             threeCalls threeCaptions
     = Normal
         [ ScoredCaption.mk (AnalysisResult.mk (9 # 10) [JStr "funny"] [] [] (JStr ""))
                            (Caption.mk 30 15 "c");
           ScoredCaption.mk CaptionAnalyzer.analysisFailure (Caption.mk 0 15 "a");
           ScoredCaption.mk CaptionAnalyzer.parseFailure (Caption.mk 15 15 "b") ].
Proof.
  destruct (scoring_failures_are_isolated rejectJSON rejectNumber threeCalls threeCaptions)
    as (Hout & _ & Hitem).
  assert (H0 : scoringFails rejectJSON rejectNumber (threeCalls 0 "a"))
    by (left; exact I).
  assert (H1 : scoringFails rejectJSON rejectNumber (threeCalls 1 "b")).
  { right. eexists. exists (JStr "sorry").
    split; [reflexivity|]. split; [reflexivity|].
    exists SyntaxError. reflexivity. }
  split; [exact H0|]. split; [exact H1|].
  split; [exact (proj1 (proj2 (Hitem 0%nat (Caption.mk 0 15 "a"))) H0)|].
  split; [exact (proj1 (proj2 (Hitem 1%nat (Caption.mk 15 15 "b"))) H1)|].
  rewrite Hout. reflexivity.
Defined.




(* ===================================================================== *)
(** * Part III: further properties of the same code *)
(* ===================================================================== *)

(** ** More on [groupCaptionsIntoSegments] *)

Section GroupMoreFacts.
Import CaptionScraper.

Lemma total_app xs ys : total (xs ++ ys) == total xs + total ys.
Proof.
  unfold total. induction xs as [|x xs IH]; simpl; [lra|]. rewrite IH. lra.
Qed.

Lemma totalDuration_app a b :
  totalDuration (a ++ b) == totalDuration a + totalDuration b.
Proof. unfold totalDuration. rewrite map_app. apply total_app. Qed.

Lemma totalDuration_cons c l :
  totalDuration (c :: l) == Caption.duration c + totalDuration l.
Proof. reflexivity. Qed.

Lemma totalDuration_nil : totalDuration [] == 0.
Proof. reflexivity. Qed.

(** The loop moves duration around but neither creates nor loses any. *)
Lemma groupStep_total w l :
  forall segments current,
    0 <= Caption.duration current ->
    Forall (fun c => 0 <= Caption.duration c) l ->
    let '(segments', current') := fold_left (groupStep w) l (segments, current) in
    totalDuration segments' + Caption.duration current'
    == totalDuration segments + Caption.duration current + totalDuration l
    /\ 0 <= Caption.duration current'.
Proof.
  induction l as [|c l IH]; intros segments current Hcur Hpos.
  - simpl. split; [rewrite totalDuration_nil; lra|assumption].
  - inversion Hpos as [|? ? Hc Hl]; subst.
    cbn [fold_left groupStep].
    destruct (JSNumber.gtb (Caption.duration current) 0
              && JSNumber.gtb (Caption.duration current + Caption.duration c) w).
    + specialize (IH (segments ++ [current])
                     {| Caption.start := Caption.start c;
                        Caption.duration := Caption.duration c;
                        Caption.text := Caption.text c |} Hc Hl).
      destruct (fold_left (groupStep w) l _) as [segments' current'].
      destruct IH as [IH Hnonneg]. split; [|exact Hnonneg].
      rewrite IH, totalDuration_app, !totalDuration_cons, totalDuration_nil.
      simpl. lra.
    + assert (Hsum : 0 <= Caption.duration current + Caption.duration c) by lra.
      specialize (IH segments
                     {| Caption.start := Caption.start current;
                        Caption.duration := Caption.duration current + Caption.duration c;
                        Caption.text := (Caption.text current ++ " " ++ Caption.text c)%string |}
                     Hsum Hl).
      destruct (fold_left (groupStep w) l _) as [segments' current'].
      destruct IH as [IH Hnonneg]. split; [|exact Hnonneg].
      rewrite IH, totalDuration_cons. simpl. lra.
Qed.

Lemma group_total captions w :
  Forall (fun c => 0 <= Caption.duration c) captions ->
  totalDuration (groupCaptionsIntoSegments captions w) == totalDuration captions.
Proof.
  intro Hpos. unfold groupCaptionsIntoSegments.
  destruct captions as [|first rest]; [reflexivity|].
  set (captions := first :: rest) in *.
  pose proof (groupStep_total w captions []
                {| Caption.start := Caption.start first;
                   Caption.duration := 0; Caption.text := "" |}) as H.
  destruct (fold_left (groupStep w) captions _) as [segments current].
  destruct H as [Hsum Hnonneg]; [simpl; lra|exact Hpos|].
  rewrite totalDuration_nil in Hsum. simpl in Hsum.
  destruct (JSNumber.gtb (Caption.duration current) 0) eqn:E.
  - rewrite totalDuration_app, totalDuration_cons, totalDuration_nil. lra.
  - js_order. lra.
Qed.

Lemma total_zero xs :
  Forall (fun x => 0 <= x) xs -> total xs == 0 -> Forall (fun x => x == 0) xs.
Proof.
  induction 1 as [|x xs Hx Hxs IH]; intro Hsum; [constructor|].
  unfold total in Hsum. simpl in Hsum. fold (total xs) in Hsum.
  assert (Hnonneg : 0 <= total xs).
  { clear -Hxs. induction Hxs as [|y ys Hy Hys IH]; unfold total; simpl; [lra|].
    fold (total ys). lra. }
  constructor; [lra|]. apply IH. lra.
Qed.

(** While every caption has duration zero, nothing is flushed and the
    accumulator stays empty. *)
Lemma groupStep_all_zero w l :
  forall current,
    Caption.duration current == 0 ->
    Forall (fun c => Caption.duration c == 0) l ->
    let '(segments', current') := fold_left (groupStep w) l ([], current) in
    segments' = [] /\ Caption.duration current' == 0.
Proof.
  induction l as [|c l IH]; intros current Hcur Hzero.
  - simpl. split; [reflexivity|assumption].
  - inversion Hzero as [|? ? Hc Hl]; subst.
    cbn [fold_left groupStep].
    replace (JSNumber.gtb (Caption.duration current) 0) with false
      by (symmetry; apply gtb_le; lra).
    cbn [andb]. apply IH; [simpl; lra|assumption].
Qed.

Lemma append_assoc' (a b c : string) : ((a ++ b) ++ c = a ++ (b ++ c))%string.
Proof. induction a as [|x a IH]; simpl; [reflexivity|]. rewrite IH. reflexivity. Qed.

Lemma concat_cons_spaced x l : String.concat " " (x :: l) = (x ++ spaced l)%string.
Proof.
  revert x. induction l as [|y l IH]; intro x.
  - simpl. induction x as [|c x IHx]; simpl; [reflexivity|]. rewrite <- IHx. reflexivity.
  - change (String.concat " " (x :: y :: l))
      with (x ++ " " ++ String.concat " " (y :: l))%string.
    rewrite IH. reflexivity.
Qed.

Lemma spaced_app a b : spaced (a ++ b) = (spaced a ++ spaced b)%string.
Proof.
  induction a as [|x a IH]; simpl; [reflexivity|].
  rewrite IH, append_assoc'. reflexivity.
Qed.

Lemma append_empty_r (a : string) : (a ++ "")%string = a.
Proof. induction a as [|x a IH]; simpl; [reflexivity|]. rewrite IH. reflexivity. Qed.

Lemma concat_snoc xs t :
  xs <> [] ->
  String.concat " " (xs ++ [t]) = (String.concat " " xs ++ " " ++ t)%string.
Proof.
  destruct xs as [|x xs]; [congruence|]. intros _.
  rewrite <- app_comm_cons, !concat_cons_spaced, spaced_app, append_assoc'.
  simpl. rewrite append_empty_r. reflexivity.
Qed.

(** Each step appends a space and the caption's text to the joined text of
    the flushed segments followed by the accumulator. *)
Lemma groupStep_joined w segments current c :
  let '(segments', current') := groupStep w (segments, current) c in
  joinedText (segments' ++ [current'])
  = (joinedText (segments ++ [current]) ++ " " ++ Caption.text c)%string.
Proof.
  unfold groupStep.
  destruct (JSNumber.gtb (Caption.duration current) 0
            && JSNumber.gtb (Caption.duration current + Caption.duration c) w).
  - unfold joinedText. rewrite (map_app _ (segments ++ [current])). simpl map at 1.
    apply concat_snoc. destruct segments; discriminate.
  - unfold joinedText. rewrite !map_app. simpl map.
    destruct (map Caption.text segments) as [|x xs] eqn:E.
    + reflexivity.
    + rewrite !concat_snoc by discriminate.
      rewrite !append_assoc'. reflexivity.
Qed.

Lemma groupStep_text w l :
  forall segments current,
    0 < Caption.duration current ->
    Forall (fun c => 0 < Caption.duration c) l ->
    let '(segments', current') := fold_left (groupStep w) l (segments, current) in
    joinedText (segments' ++ [current'])
    = (joinedText (segments ++ [current]) ++ spaced (map Caption.text l))%string
    /\ 0 < Caption.duration current'.
Proof.
  induction l as [|c l IH]; intros segments current Hcur Hpos.
  - simpl. rewrite append_empty_r. split; [reflexivity|assumption].
  - inversion Hpos as [|? ? Hc Hl]; subst.
    cbn [fold_left].
    pose proof (groupStep_joined w segments current c) as Hstep.
    assert (Hdur : 0 < Caption.duration (snd (groupStep w (segments, current) c))).
    { unfold groupStep. destruct (_ && _); simpl; lra. }
    destruct (groupStep w (segments, current) c) as [segments1 current1].
    specialize (IH segments1 current1 Hdur Hl).
    destruct (fold_left (groupStep w) l (segments1, current1)) as [segments' current'].
    destruct IH as [IH Hlast]. split; [|exact Hlast].
    rewrite IH, Hstep. simpl. rewrite !append_assoc'. reflexivity.
Qed.

Lemma runSum_snoc run c : runSum (run ++ [c]) = runSum run + Caption.duration c.
Proof. unfold runSum. rewrite fold_left_app. reflexivity. Qed.

Lemma runSum_grows run :
  Forall (fun c => 0 < Caption.duration c) run ->
  forall init,
    init <= fold_left (fun acc c => acc + Caption.duration c) run init
    /\ (run <> [] -> init < fold_left (fun acc c => acc + Caption.duration c) run init).
Proof.
  induction 1 as [|c run Hc _ IH]; intro init; simpl.
  - split; [lra|congruence].
  - destruct (IH (init + Caption.duration c)) as [Hle _].
    split; [lra|intros _; lra].
Qed.

Lemma runSum_positive run :
  Forall (fun c => 0 < Caption.duration c) run -> run <> [] -> 0 < runSum run.
Proof. intros Hpos Hne. apply (runSum_grows run Hpos 0). exact Hne. Qed.

(** The loop invariant behind the runs: the finished segments stand for
    finished runs, and the accumulator for the run still open. *)
Lemma groupStep_runs w l :
  forall segments current runsDone openRun,
    Forall (fun c => 0 < Caption.duration c) l ->
    Forall (fun c => 0 < Caption.duration c) openRun ->
    Forall2 summarisesRun runsDone segments ->
    Caption.duration current == runSum openRun ->
    match openRun, l with
    | first :: _, _ => Caption.start current = Caption.start first
    | [], first :: _ => Caption.start current = Caption.start first
    | [], [] => True
    end ->
    exists runsDone' openRun',
      concat runsDone' ++ openRun' = concat runsDone ++ openRun ++ l
      /\ Forall2 summarisesRun runsDone' (fst (fold_left (groupStep w) l (segments, current)))
      /\ (openRun ++ l <> [] ->
          summarisesRun openRun' (snd (fold_left (groupStep w) l (segments, current)))
          /\ 0 < Caption.duration (snd (fold_left (groupStep w) l (segments, current)))).
Proof.
  induction l as [|c l IH]; intros segments current runsDone openRun Hl Hopen Hdone Hsum Hstart.
  - exists runsDone, openRun. simpl. rewrite app_nil_r.
    split; [reflexivity|]. split; [exact Hdone|]. intro Hne.
    destruct openRun as [|first run]; [congruence|].
    split; [split; [exact Hstart|exact Hsum]|].
    rewrite Hsum. apply runSum_positive; [exact Hopen|discriminate].
  - inversion Hl as [|? ? Hc Hl']; subst.
    cbn [fold_left groupStep].
    destruct (JSNumber.gtb (Caption.duration current) 0
              && JSNumber.gtb (Caption.duration current + Caption.duration c) w) eqn:E.
    + apply andb_true_iff in E. destruct E as [Epos _]. js_order.
      destruct openRun as [|first run].
      { exfalso. unfold runSum in Hsum. simpl in Hsum. lra. }
      destruct (IH (segments ++ [current])
                   {| Caption.start := Caption.start c;
                      Caption.duration := Caption.duration c;
                      Caption.text := Caption.text c |}
                   (runsDone ++ [first :: run]) [c] Hl')
        as (runsDone' & openRun' & Hcat & Hdone' & Hlast).
      * constructor; [exact Hc|constructor].
      * apply Forall2_app; [exact Hdone|].
        constructor; [|constructor]. split; [exact Hstart|exact Hsum].
      * unfold runSum. simpl. lra.
      * reflexivity.
      * exists runsDone', openRun'. split.
        -- rewrite Hcat, concat_app. simpl. rewrite app_nil_r, <- !app_assoc.
           reflexivity.
        -- split; [exact Hdone'|]. intros _. apply Hlast. discriminate.
    + destruct (IH segments
                   {| Caption.start := Caption.start current;
                      Caption.duration := Caption.duration current + Caption.duration c;
                      Caption.text := (Caption.text current ++ " " ++ Caption.text c)%string |}
                   runsDone (openRun ++ [c]) Hl')
        as (runsDone' & openRun' & Hcat & Hdone' & Hlast).
      * apply Forall_app. split; [exact Hopen|]. constructor; [exact Hc|constructor].
      * exact Hdone.
      * rewrite runSum_snoc. simpl. rewrite Hsum. reflexivity.
      * destruct openRun as [|first run]; simpl; exact Hstart.
      * exists runsDone', openRun'. split.
        -- rewrite Hcat, <- !app_assoc. reflexivity.
        -- split; [exact Hdone'|]. intros _. apply Hlast.
           destruct openRun; discriminate.
Qed.

Lemma group_runs captions w :
  Forall (fun c => 0 < Caption.duration c) captions ->
  exists runs,
    concat runs = captions
    /\ Forall2 summarisesRun runs (groupCaptionsIntoSegments captions w).
Proof.
  intro Hpos. unfold groupCaptionsIntoSegments.
  destruct captions as [|first rest]; [exists []; split; constructor|].
  set (captions := first :: rest) in *.
  destruct (groupStep_runs w captions []
              {| Caption.start := Caption.start first;
                 Caption.duration := 0; Caption.text := "" |} [] [] Hpos)
    as (runsDone & openRun & Hcat & Hdone & Hlast).
  - constructor.
  - constructor.
  - reflexivity.
  - reflexivity.
  - destruct (fold_left (groupStep w) captions _) as [segments current].
    simpl in Hdone, Hlast, Hcat.
    destruct Hlast as [Hrun Hpositive]; [discriminate|].
    exists (runsDone ++ [openRun]). split.
    + rewrite concat_app. simpl. rewrite app_nil_r. exact Hcat.
    + destruct (JSNumber.gtb (Caption.duration current) 0) eqn:E.
      * apply Forall2_app; [exact Hdone|]. constructor; [exact Hrun|constructor].
      * js_order. lra.
Qed.

End GroupMoreFacts.

(** X1: grouping cuts the caption list into runs of consecutive captions,
    one returned segment per run and in the same order: when every caption
    has a positive duration, the input is the concatenation of non-empty
    runs, and each returned segment starts where the first caption of its
    run starts and has as duration the durations of the run added from left
    to right. *)
Theorem group_segments_sum_consecutive_runs captions windowSeconds :
  Forall (fun c => 0 < Caption.duration c) captions ->
  exists runs,
    concat runs = captions
    /\ Forall2 summarisesRun runs
               (CaptionScraper.groupCaptionsIntoSegments captions windowSeconds).
Proof. apply group_runs. Qed.

(** Witness for X1: scenario A with a window of 8 seconds. *)
Lemma group_segments_sum_consecutive_runs_witness :
  Forall (fun c => 0 < Caption.duration c) scenarioA
  /\ exists runs,
       concat runs = scenarioA
       /\ Forall2 summarisesRun runs (CaptionScraper.groupCaptionsIntoSegments scenarioA 8).
Proof.
  assert (H : Forall (fun c => 0 < Caption.duration c) scenarioA)
    by (unfold scenarioA; repeat constructor).
  split; [exact H|].
  exact (group_segments_sum_consecutive_runs scenarioA 8 H).
Defined.

(** X2: when no caption has a negative duration, grouping returns the empty
    list exactly when every caption has duration zero: captions without a
    duration are merged into an accumulator that is never flushed, and
    their text is dropped. *)
Theorem group_empty_iff_untimed captions windowSeconds :
  Forall (fun c => 0 <= Caption.duration c) captions ->
  (CaptionScraper.groupCaptionsIntoSegments captions windowSeconds = []
   <-> Forall (fun c => Caption.duration c == 0) captions).
Proof.
  intro Hpos. split.
  - intro Hempty.
    pose proof (group_total captions windowSeconds Hpos) as Hsum.
    rewrite Hempty, totalDuration_nil in Hsum.
    assert (Hzero : Forall (fun x => x == 0) (map Caption.duration captions)).
    { apply total_zero.
      - apply Forall_map. exact Hpos.
      - symmetry. exact Hsum. }
    apply Forall_map in Hzero. exact Hzero.
  - intro Hzero. unfold CaptionScraper.groupCaptionsIntoSegments.
    destruct captions as [|first rest]; [reflexivity|].
    pose proof (groupStep_all_zero windowSeconds (first :: rest)
                  {| Caption.start := Caption.start first;
                     Caption.duration := 0; Caption.text := "" |}) as H.
    destruct (fold_left (CaptionScraper.groupStep windowSeconds) (first :: rest) _)
      as [segments current].
    destruct H as [-> Hcur]; [simpl; lra|exact Hzero|].
    replace (JSNumber.gtb (Caption.duration current) 0) with false
      by (symmetry; apply gtb_le; lra).
    reflexivity.
Qed.

(** Witness for X2: two captions of duration 0 are grouped into nothing. *)
Lemma group_empty_iff_untimed_witness :
  Forall (fun c => 0 <= Caption.duration c) untimedCaptions
  /\ Forall (fun c => Caption.duration c == 0) untimedCaptions
  /\ CaptionScraper.groupCaptionsIntoSegments untimedCaptions 15 = [].
Proof.
  assert (H : Forall (fun c => 0 <= Caption.duration c) untimedCaptions)
    by (unfold untimedCaptions; repeat constructor; discriminate).
  assert (Hz : Forall (fun c => Caption.duration c == 0) untimedCaptions)
    by (unfold untimedCaptions; repeat constructor).
  split; [exact H|]. split; [exact Hz|].
  exact (proj2 (group_empty_iff_untimed untimedCaptions 15 H) Hz).
Defined.

(** X3: grouping keeps every word in order: for a non-empty sequence of
    captions of positive duration, the texts of the returned segments
    joined by spaces are a space followed by the texts of the captions
    joined by spaces. *)
Theorem group_preserves_text captions windowSeconds :
  captions <> [] ->
  Forall (fun c => 0 < Caption.duration c) captions ->
  joinedText (CaptionScraper.groupCaptionsIntoSegments captions windowSeconds)
  = String " " (joinedText captions).
Proof.
  intros Hne Hpos. unfold CaptionScraper.groupCaptionsIntoSegments.
  destruct captions as [|first rest]; [congruence|].
  inversion Hpos as [|? ? Hfirst Hrest]; subst.
  cbn [fold_left CaptionScraper.groupStep].
  replace (JSNumber.gtb
             (Caption.duration
                {| Caption.start := Caption.start first;
                   Caption.duration := 0; Caption.text := "" |}) 0)
    with false by (symmetry; apply gtb_le; simpl; lra).
  cbn [andb].
  set (merged := {| Caption.start := _; Caption.duration := _; Caption.text := _ |}).
  pose proof (groupStep_text windowSeconds rest [] merged) as H.
  destruct (fold_left (CaptionScraper.groupStep windowSeconds) rest ([], merged))
    as [segments current].
  destruct H as [Htext Hlast]; [simpl; lra|exact Hrest|].
  apply gtb_gt in Hlast. rewrite Hlast. rewrite Htext.
  unfold joinedText. cbn [app map]. rewrite !concat_cons_spaced.
  unfold merged. cbn [Caption.text spaced fold_right].
  rewrite append_empty_r. reflexivity.
Qed.

(** Witness for X3: scenario A with a window of 8 seconds. *)
Lemma group_preserves_text_witness :
  scenarioA <> []
  /\ Forall (fun c => 0 < Caption.duration c) scenarioA
  /\ joinedText (CaptionScraper.groupCaptionsIntoSegments scenarioA 8) = " a b c".
Proof.
  assert (Hne : scenarioA <> []) by discriminate.
  assert (H : Forall (fun c => 0 < Caption.duration c) scenarioA)
    by (unfold scenarioA; repeat constructor).
  split; [exact Hne|]. split; [exact H|].
  exact (group_preserves_text scenarioA 8 Hne H).
Defined.

(** ** More on [ViralContentDetector] *)

Section DetectorMoreFacts.
Import ViralContentDetector.
Variable options : DetectionOptions.

Lemma ofNat_nonneg i : 0 <= JSNumber.ofNat i.
Proof.
  unfold JSNumber.ofNat. change 0 with (inject_Z 0). rewrite <- Zle_Qle. lia.
Qed.

Lemma ofNat_le i j : (i <= j)%nat -> JSNumber.ofNat i <= JSNumber.ofNat j.
Proof. intro H. unfold JSNumber.ofNat. rewrite <- Zle_Qle. lia. Qed.

Lemma ofNat_pos n : (0 < n)%nat -> 0 < JSNumber.ofNat n.
Proof.
  intro H. unfold JSNumber.ofNat. change 0 with (inject_Z 0). rewrite <- Zlt_Qlt. lia.
Qed.

Lemma fraction_nonneg i n : 0 <= JSNumber.ofNat i / JSNumber.ofNat n.
Proof.
  unfold Qdiv. apply Qmult_le_0_compat; [apply ofNat_nonneg|].
  apply Qinv_le_0_compat, ofNat_nonneg.
Qed.

Lemma timePoint_nonneg n T i : 0 <= T -> 0 <= timePoint n T i.
Proof.
  intro HT. unfold timePoint. apply Qmult_le_0_compat; [apply fraction_nonneg|exact HT].
Qed.

Lemma timePoint_mono n T i j :
  0 <= T -> (i <= j)%nat -> timePoint n T i <= timePoint n T j.
Proof.
  intros HT Hij. unfold timePoint. apply Qmult_le_compat_r; [|exact HT].
  unfold Qdiv. apply Qmult_le_compat_r; [apply ofNat_le; exact Hij|].
  apply Qinv_le_0_compat, ofNat_nonneg.
Qed.

Lemma timePoint_le_duration n T i :
  0 <= T -> (i <= n)%nat -> timePoint n T i <= T.
Proof.
  intros HT Hin. unfold timePoint.
  setoid_replace T with (1 * T) at 2 by ring.
  apply Qmult_le_compat_r; [|exact HT].
  destruct n as [|n].
  - assert (i = 0%nat) by lia. subst i. vm_compute. discriminate.
  - apply Qle_shift_div_r; [apply ofNat_pos; lia|].
    rewrite Qmult_1_l. apply ofNat_le. exact Hin.
Qed.

Lemma withinAudio_weaken b b' s : b <= b' -> withinAudio b s -> withinAudio b' s.
Proof. unfold withinAudio. intros Hb (H1 & H2 & H3). repeat split; lra. Qed.

Lemma loopOrdered_weaken b b' segments current :
  b <= b' -> loopOrdered b segments current -> loopOrdered b' segments current.
Proof.
  intros Hb (Hsorted & Hwithin & Hcur). split; [exact Hsorted|]. split.
  - eapply Forall_impl; [|exact Hwithin]. intros s. apply withinAudio_weaken. exact Hb.
  - destruct current as [c|]; [|exact I].
    destruct Hcur as (H1 & H2 & H3). repeat split; try assumption. lra.
Qed.

Lemma StronglySorted_snoc {A} (R : A -> A -> Prop) l x :
  StronglySorted R l -> Forall (fun y => R y x) l -> StronglySorted R (l ++ [x]).
Proof.
  induction 1 as [|a l Hl IH Ha]; intro Hx; simpl.
  - constructor; constructor.
  - inversion Hx; subst. constructor; [apply IH; assumption|].
    apply Forall_app. split; [exact Ha|]. constructor; [assumption|constructor].
Qed.

Lemma closeSegment_ordered bound segments current endTime :
  loopOrdered bound segments (Some current) ->
  bound <= endTime ->
  loopOrdered endTime (closeSegment options segments current endTime) None.
Proof.
  intros (Hsorted & Hwithin & Hstart & Hle & Hends) Hbound.
  assert (Hweak : Forall (withinAudio endTime) segments).
  { eapply Forall_impl; [|exact Hwithin]. intro s. apply withinAudio_weaken. exact Hbound. }
  unfold closeSegment.
  destruct (withinDuration options (endTime - openStart current)).
  - split; [|split; [|exact I]].
    + apply StronglySorted_snoc; [exact Hsorted|].
      eapply Forall_impl; [|exact Hends]. intros s Hs. exact Hs.
    + apply Forall_app. split; [exact Hweak|].
      constructor; [|constructor]. unfold withinAudio. simpl. repeat split; lra.
  - split; [exact Hsorted|]. split; [exact Hweak|exact I].
Qed.

Lemma analyzeLoop_ordered n T :
  0 <= T ->
  forall energyLevels i segments current,
    (i + length energyLevels = n)%nat ->
    loopOrdered (timePoint n T i) segments current ->
    let '(segments', current') :=
      analyzeLoop options n T i energyLevels segments current in
    loopOrdered (timePoint n T n) segments' current'.
Proof.
  intro HT. induction energyLevels as [|energy rest IH];
    intros i segments current Hlen Hinv.
  - simpl in *. assert (i = n) by lia. subst i. exact Hinv.
  - cbn [analyzeLoop]. simpl in Hlen.
    fold (timePoint n T i).
    assert (Hnext : timePoint n T i <= timePoint n T (S i))
      by (apply timePoint_mono; [exact HT|lia]).
    destruct (JSNumber.gtb energy (DetectionOptions.energyThreshold options));
      destruct current as [current|]; apply IH; try lia.
    + eapply loopOrdered_weaken; [exact Hnext|exact Hinv].
    + destruct Hinv as (Hsorted & Hwithin & _).
      apply (loopOrdered_weaken (timePoint n T i)); [exact Hnext|].
      split; [exact Hsorted|]. split; [exact Hwithin|].
      simpl. split; [apply timePoint_nonneg; exact HT|]. split; [lra|].
      eapply Forall_impl; [|exact Hwithin]. intros s (_ & _ & Hs). exact Hs.
    + apply (loopOrdered_weaken (timePoint n T i)); [exact Hnext|].
      eapply closeSegment_ordered; [exact Hinv|lra].
    + eapply loopOrdered_weaken; [exact Hnext|exact Hinv].
Qed.

Lemma segmentsOfEnergy_ordered T energyLevels :
  0 <= T ->
  StronglySorted precedes (segmentsOfEnergy options T energyLevels)
  /\ Forall (withinAudio T) (segmentsOfEnergy options T energyLevels).
Proof.
  intro HT. unfold segmentsOfEnergy.
  set (n := length energyLevels).
  pose proof (analyzeLoop_ordered n T HT energyLevels 0%nat [] None eq_refl) as H.
  destruct (analyzeLoop options n T 0 energyLevels [] None) as [segments current].
  assert (Hinit : loopOrdered (timePoint n T 0) [] None)
    by (split; [constructor|split; [constructor|exact I]]).
  specialize (H Hinit).
  assert (Hend : timePoint n T n <= T) by (apply timePoint_le_duration; [exact HT|lia]).
  destruct current as [current|].
  - destruct (closeSegment_ordered _ _ _ T H Hend) as (Hsorted & Hwithin & _).
    split; assumption.
  - destruct (loopOrdered_weaken _ T _ _ Hend H) as (Hsorted & Hwithin & _).
    split; assumption.
Qed.

Lemma StronglySorted_pairs {A} (R S : A -> A -> Prop) l :
  (forall a b, R a b -> S a b) -> StronglySorted R l -> ForallOrdPairs S l.
Proof.
  intro HRS. induction 1 as [|a l Hl IH Ha]; constructor; [|exact IH].
  eapply Forall_impl; [|exact Ha]. intros b. apply HRS.
Qed.

Lemma precedes_no_overlap a b :
  precedes a b ->
  EnhancedViralDetector.segmentsOverlap (audioSpan a) (audioSpan b) = false.
Proof.
  unfold precedes, EnhancedViralDetector.segmentsOverlap. simpl. intro H.
  apply andb_false_iff. right. apply ltb_ge. exact H.
Qed.

(** Every candidate is opened with the type [speech]. *)
Lemma analyzeLoop_speech n T energyLevels :
  forall i segments current,
    Forall (fun s => Segment.type_ s = Segment.speech) segments ->
    match current with Some c => openType c = Segment.speech | None => True end ->
    let '(segments', current') :=
      analyzeLoop options n T i energyLevels segments current in
    Forall (fun s => Segment.type_ s = Segment.speech) segments'
    /\ match current' with Some c => openType c = Segment.speech | None => True end.
Proof.
  induction energyLevels as [|energy rest IH]; intros i segments current Hsegs Hcur.
  - simpl. split; assumption.
  - cbn [analyzeLoop].
    destruct (JSNumber.gtb energy (DetectionOptions.energyThreshold options));
      destruct current as [current|]; apply IH; try assumption; try exact I.
    + reflexivity.
    + unfold closeSegment. destruct (withinDuration _ _); [|exact Hsegs].
      apply Forall_app. split; [exact Hsegs|]. constructor; [exact Hcur|constructor].
Qed.

Lemma segmentsOfEnergy_speech T energyLevels :
  Forall (fun s => Segment.type_ s = Segment.speech)
         (segmentsOfEnergy options T energyLevels).
Proof.
  unfold segmentsOfEnergy.
  pose proof (analyzeLoop_speech (length energyLevels) T energyLevels 0%nat [] None
                (Forall_nil _) I) as H.
  destruct (analyzeLoop _ _ _ _ _ _ _) as [segments current].
  destruct H as [Hsegs Hcur].
  destruct current as [current|]; [|exact Hsegs].
  unfold closeSegment. destruct (withinDuration _ _); [|exact Hsegs].
  apply Forall_app. split; [exact Hsegs|]. constructor; [exact Hcur|constructor].
Qed.

Lemma calculateDurationScore_range duration :
  0 < Qmax (15 - DetectionOptions.minSegmentDuration options)
           (DetectionOptions.maxSegmentDuration options - 15) ->
  DetectionOptions.minSegmentDuration options <= duration ->
  duration <= DetectionOptions.maxSegmentDuration options ->
  0 <= calculateDurationScore options duration <= 1.
Proof.
  intros Hmax Hlo Hhi. unfold calculateDurationScore. cbv zeta.
  set (maxDistance := Qmax _ _) in *.
  assert (Hdist : Qabs (duration - 15) <= maxDistance).
  { apply Qabs_Qle_condition.
    pose proof (Q.le_max_l (15 - DetectionOptions.minSegmentDuration options)
                           (DetectionOptions.maxSegmentDuration options - 15)) as Hl.
    pose proof (Q.le_max_r (15 - DetectionOptions.minSegmentDuration options)
                           (DetectionOptions.maxSegmentDuration options - 15)) as Hr.
    fold maxDistance in Hl, Hr. split; lra. }
  assert (Hq0 : 0 <= Qabs (duration - 15) / maxDistance).
  { apply Qle_shift_div_l; [exact Hmax|]. rewrite Qmult_0_l. apply Qabs_nonneg. }
  assert (Hq1 : Qabs (duration - 15) / maxDistance <= 1).
  { apply Qle_shift_div_r; [exact Hmax|]. rewrite Qmult_1_l. exact Hdist. }
  split; lra.
Qed.

Lemma scoreSegment_range segment :
  0 < Qmax (15 - DetectionOptions.minSegmentDuration options)
           (DetectionOptions.maxSegmentDuration options - 15) ->
  durationInRange options segment ->
  Segment.type_ segment = Segment.speech ->
  Segment.type_ (scoreSegment options segment) = Segment.speech
  /\ 4 # 10 <= Segment.score (scoreSegment options segment) <= 9 # 10.
Proof.
  intros Hmax [Hlo Hhi] Htype. split; [exact Htype|].
  unfold scoreSegment. cbv zeta. cbn [Segment.score].
  rewrite Htype. cbn [Segment.kind_eqb].
  pose proof (calculateDurationScore_range _ Hmax Hlo Hhi) as [H0 H1].
  set (d := calculateDurationScore options _) in *. clearbody d.
  unfold Qdiv. change (/ 2) with (1 # 2). split; lra.
Qed.

Lemma Forall_skipn_keep {A} (P : A -> Prop) l :
  Forall P l -> forall n, Forall P (skipn n l).
Proof.
  induction 1 as [|a l Ha Hl IH]; intro n.
  - rewrite skipn_nil. constructor.
  - destruct n as [|n]; simpl; [constructor; assumption|apply IH].
Qed.

Lemma firstn_dominates {A} (R : A -> A -> Prop) l n :
  StronglySorted R l ->
  Forall (fun t => Forall (R t) (skipn n l)) (firstn n l).
Proof.
  intro Hsorted. revert n. induction Hsorted as [|a l Hl IH Ha]; intro n.
  - rewrite firstn_nil. constructor.
  - destruct n as [|n]; [constructor|]. simpl. constructor; [|apply IH].
    apply Forall_skipn_keep. exact Ha.
Qed.

End DetectorMoreFacts.

(** X4: in an audio of non-negative duration the candidates built by
    [analyzeAudio] follow one another in time: each lies inside
    [[0, audioDuration]] with its start not after its end, each ends before
    the next one starts, and so no two of them overlap. *)
Theorem candidates_are_ordered_and_disjoint options audioDuration energyLevels :
  0 <= audioDuration ->
  StronglySorted precedes
    (ViralContentDetector.segmentsOfEnergy options audioDuration energyLevels)
  /\ Forall (withinAudio audioDuration)
            (ViralContentDetector.segmentsOfEnergy options audioDuration energyLevels)
  /\ ForallOrdPairs
       (fun a b =>
          EnhancedViralDetector.segmentsOverlap (audioSpan a) (audioSpan b) = false)
       (ViralContentDetector.segmentsOfEnergy options audioDuration energyLevels).
Proof.
  intro HT.
  destruct (segmentsOfEnergy_ordered options audioDuration energyLevels HT)
    as [Hsorted Hwithin].
  split; [exact Hsorted|]. split; [exact Hwithin|].
  eapply StronglySorted_pairs; [|exact Hsorted].
  apply precedes_no_overlap.
Qed.

(** Witness for X4: 200 seconds of audio with the ten samples. *)
Lemma candidates_are_ordered_and_disjoint_witness :
  0 <= 200
  /\ StronglySorted precedes
       (ViralContentDetector.segmentsOfEnergy defaultOptions 200 tenSamples)
  /\ Forall (withinAudio 200)
            (ViralContentDetector.segmentsOfEnergy defaultOptions 200 tenSamples).
Proof.
  assert (H : 0 <= 200) by discriminate.
  split; [exact H|].
  destruct (candidates_are_ordered_and_disjoint defaultOptions 200 tenSamples H)
    as (Hsorted & Hwithin & _).
  split; assumption.
Defined.

(** X5: when the largest distance from the optimal duration of 15 seconds
    is positive, every segment returned by [detectViralSegments] has type
    speech and a score between 0.4 and 0.9. *)
Theorem detected_scores_are_bounded options media :
  0 < Qmax (15 - DetectionOptions.minSegmentDuration options)
           (DetectionOptions.maxSegmentDuration options - 15) ->
  exists returned,
    ViralContentDetector.detectViralSegments options media = Normal returned
    /\ Forall (fun s => Segment.type_ s = Segment.speech
                        /\ 4 # 10 <= Segment.score s <= 9 # 10)
              returned.
Proof.
  intro Hmax.
  destruct (detect_cases options media) as [Hempty|(audioDuration & _ & Hout)].
  - exists []. split; [exact Hempty|constructor].
  - eexists. split; [exact Hout|].
    unfold ViralContentDetector.scoreSegments. apply sort_Forall.
    apply Forall_map.
    pose proof (segmentsOfEnergy_inRange options audioDuration
                  (ViralContentDetector.analyzeEnergyLevels media)) as Hrange.
    pose proof (segmentsOfEnergy_speech options audioDuration
                  (ViralContentDetector.analyzeEnergyLevels media)) as Hspeech.
    rewrite Forall_forall in *. intros s Hs.
    apply scoreSegment_range; [exact Hmax|apply Hrange|apply Hspeech]; exact Hs.
Qed.

(** Witness for X5: the default options on 200 seconds of audio. *)
Lemma detected_scores_are_bounded_witness :
  0 < Qmax (15 - DetectionOptions.minSegmentDuration defaultOptions)
           (DetectionOptions.maxSegmentDuration defaultOptions - 15)
  /\ exists returned,
       ViralContentDetector.detectViralSegments defaultOptions longAudio = Normal returned
       /\ Forall (fun s => Segment.type_ s = Segment.speech
                           /\ 4 # 10 <= Segment.score s <= 9 # 10)
                 returned.
Proof.
  assert (H : 0 < Qmax (15 - DetectionOptions.minSegmentDuration defaultOptions)
                       (DetectionOptions.maxSegmentDuration defaultOptions - 15))
    by reflexivity.
  split; [exact H|].
  exact (detected_scores_are_bounded defaultOptions longAudio H).
Defined.

(** X6: when [max (15 - minSegmentDuration) (maxSegmentDuration - 15)] is
    positive, so that the duration score divides by a positive distance,
    the segments returned by [detectViralSegments] are ranked by score,
    highest first, so [getTopSegments] returns at most [count] segments,
    none of which scores less than a segment it leaves out. *)
Theorem detected_segments_are_ranked options media :
  0 < Qmax (15 - DetectionOptions.minSegmentDuration options)
           (DetectionOptions.maxSegmentDuration options - 15) ->
  exists returned,
    ViralContentDetector.detectViralSegments options media = Normal returned
    /\ StronglySorted (keyGe Segment.score) returned
    /\ forall count,
         (length (ViralContentDetector.getTopSegments returned count) <= count)%nat
         /\ Forall (fun top =>
                      Forall (fun rest => Segment.score rest <= Segment.score top)
                             (skipn count returned))
                   (ViralContentDetector.getTopSegments returned count).
Proof.
  assert (Htop : forall returned,
             StronglySorted (keyGe Segment.score) returned ->
             forall count,
               (length (ViralContentDetector.getTopSegments returned count) <= count)%nat
               /\ Forall (fun top =>
                            Forall (fun rest => Segment.score rest <= Segment.score top)
                                   (skipn count returned))
                         (ViralContentDetector.getTopSegments returned count)).
  { intros returned Hsorted count. split.
    - unfold ViralContentDetector.getTopSegments. apply firstn_le_length.
    - exact (firstn_dominates (keyGe Segment.score) returned count Hsorted). }
  intros _.
  destruct (detect_cases options media) as [Hempty|(audioDuration & _ & Hout)].
  - exists []. split; [exact Hempty|]. split; [constructor|]. apply Htop. constructor.
  - eexists. split; [exact Hout|].
    assert (Hsorted : StronglySorted (keyGe Segment.score)
                        (ViralContentDetector.scoreSegments options
                           (ViralContentDetector.segmentsOfEnergy options audioDuration
                              (ViralContentDetector.analyzeEnergyLevels media))))
      by apply sort_sorted.
    split; [exact Hsorted|]. apply Htop. exact Hsorted.
Qed.

(** Witness for X6: the default options on 200 seconds of audio. *)
Lemma detected_segments_are_ranked_witness :
  0 < Qmax (15 - DetectionOptions.minSegmentDuration defaultOptions)
           (DetectionOptions.maxSegmentDuration defaultOptions - 15)
  /\ exists returned,
       ViralContentDetector.detectViralSegments defaultOptions longAudio = Normal returned
       /\ StronglySorted (keyGe Segment.score) returned
       /\ forall count,
            (length (ViralContentDetector.getTopSegments returned count) <= count)%nat
            /\ Forall (fun top =>
                         Forall (fun rest => Segment.score rest <= Segment.score top)
                                (skipn count returned))
                      (ViralContentDetector.getTopSegments returned count).
Proof.
  assert (H : 0 < Qmax (15 - DetectionOptions.minSegmentDuration defaultOptions)
                       (DetectionOptions.maxSegmentDuration defaultOptions - 15))
    by reflexivity.
  split; [exact H|].
  exact (detected_segments_are_ranked defaultOptions longAudio H).
Defined.

(** X7: an option given as 0 is replaced by its default, like a missing
    one: a detector constructed with a minimum duration of 0 (or none)
    still discards every candidate shorter than 5 seconds. *)
Theorem zero_minimum_falls_back_to_default partialOptions audioDuration energyLevels :
  DetectionOptions.minSegmentDuration' partialOptions = None
  \/ (exists q, DetectionOptions.minSegmentDuration' partialOptions = Some q /\ q == 0) ->
  DetectionOptions.minSegmentDuration (ViralContentDetector.constructor partialOptions) = 5
  /\ Forall (fun s => 5 <= Segment.end_ s - Segment.start s)
            (ViralContentDetector.segmentsOfEnergy
               (ViralContentDetector.constructor partialOptions)
               audioDuration energyLevels).
Proof.
  intro Hmin.
  assert (Hfive : DetectionOptions.minSegmentDuration
                    (ViralContentDetector.constructor partialOptions) = 5).
  { unfold ViralContentDetector.constructor. simpl.
    destruct Hmin as [->|(q & -> & Hq)]; [reflexivity|].
    simpl. apply Qeq_bool_iff in Hq. rewrite Hq. reflexivity. }
  split; [exact Hfive|].
  pose proof (segmentsOfEnergy_inRange (ViralContentDetector.constructor partialOptions)
                audioDuration energyLevels) as Hrange.
  eapply Forall_impl; [|exact Hrange].
  intros s [Hlo _]. rewrite Hfive in Hlo. exact Hlo.
Qed.

(** Witness for X7: options with an explicit minimum of 0. *)
Lemma zero_minimum_falls_back_to_default_witness :
  (exists q, DetectionOptions.minSegmentDuration' noMinimum = Some q /\ q == 0)
  /\ DetectionOptions.minSegmentDuration (ViralContentDetector.constructor noMinimum) = 5
  /\ Forall (fun s => 5 <= Segment.end_ s - Segment.start s)
            (ViralContentDetector.segmentsOfEnergy
               (ViralContentDetector.constructor noMinimum) 200 tenSamples).
Proof.
  assert (H : exists q, DetectionOptions.minSegmentDuration' noMinimum = Some q /\ q == 0)
    by (exists 0; split; reflexivity).
  split; [exact H|].
  exact (zero_minimum_falls_back_to_default noMinimum 200 tenSamples (or_intror H)).
Defined.

(** ** More on [CaptionAnalyzer] *)

Section ScorerMoreFacts.
Variable JSON_parse : string -> option jsval.
Variable parseFloatString : string -> option Q.

Lemma mapFrom_captions post l :
  forall i,
    map ScoredCaption.caption
        (JSArray.mapFrom (scoredCaptionOf JSON_parse parseFloatString post) i l)
    = l.
Proof.
  induction l as [|c l IH]; intro i; simpl; [reflexivity|]. rewrite IH. reflexivity.
Qed.

End ScorerMoreFacts.

(** X8: [analyzeMultipleSegments] returns its results ranked by score,
    highest first, and the captions they carry are the given captions, each
    exactly once: batching and failures neither drop nor repeat a segment. *)
Theorem scored_captions_are_ranked
        (JSON_parse : string -> option jsval) (parseFloatString : string -> option Q)
        (post : nat -> string -> PostOutcome) (captions : list Caption) :
  exists results,
    CaptionAnalyzer.analyzeMultipleSegments JSON_parse parseFloatString post captions
    = Normal results
    /\ StronglySorted (keyGe ScoredCaption.score) results
    /\ Permutation (map ScoredCaption.caption results) captions
    /\ length results = length captions.
Proof.
  eexists. split.
  - unfold CaptionAnalyzer.analyzeMultipleSegments.
    rewrite (batchLoop_all JSON_parse parseFloatString post captions
                           (length captions) 0 []) by lia.
    reflexivity.
  - simpl. split; [apply sort_sorted|].
    assert (Hperm : Permutation
                      (map ScoredCaption.caption
                         (JSArray.sort (JSArray.descending ScoredCaption.score)
                            (JSArray.mapFrom
                               (scoredCaptionOf JSON_parse parseFloatString post)
                               0 captions)))
                      captions).
    { rewrite <- (mapFrom_captions JSON_parse parseFloatString post captions 0) at 2.
      apply Permutation_map, Permutation_sym, sort_perm. }
    split; [exact Hperm|].
    rewrite <- (length_map ScoredCaption.caption).
    apply Permutation_length. exact Hperm.
Qed.

(** X9: a well-formed answer is read back as it is: when the response
    decodes to an object whose score is a number, whose reasons, emotions
    and keywords are arrays and whose summary is a string, the parsed
    result has that score and exactly those arrays and that summary. *)
Theorem well_formed_answer_is_read_back
        (JSON_parse : string -> option jsval) (parseFloatString : string -> option Q)
        (responseText : jsval) fields q rs es ks s :
  CaptionAnalyzer.decodeResponse JSON_parse responseText = Normal (JObj fields) ->
  JSValue.lookup "score" fields = JNum q ->
  JSValue.lookup "reasons" fields = JArr rs ->
  JSValue.lookup "emotions" fields = JArr es ->
  JSValue.lookup "keywords" fields = JArr ks ->
  JSValue.lookup "summary" fields = JStr s ->
  exists r,
    CaptionAnalyzer.parseAnalysisResult JSON_parse parseFloatString responseText
    = Normal r
    /\ AnalysisResult.score r == q
    /\ AnalysisResult.reasons r = rs
    /\ AnalysisResult.emotions r = es
    /\ AnalysisResult.keywords r = ks
    /\ AnalysisResult.summary r = JStr s.
Proof.
  intros Hdecode Hscore Hreasons Hemotions Hkeywords Hsummary.
  unfold CaptionAnalyzer.parseAnalysisResult. rewrite Hdecode.
  unfold CaptionAnalyzer.readResult. simpl.
  rewrite Hscore, Hreasons, Hemotions, Hkeywords, Hsummary. simpl.
  eexists. split; [reflexivity|]. simpl.
  split; [|repeat split].
  - destruct (Qeq_bool q 0) eqn:E; [|reflexivity].
    apply Qeq_bool_iff in E. symmetry. exact E.
  - destruct (String.eqb s "") eqn:E; simpl; [|reflexivity].
    apply String.eqb_eq in E. subst s. reflexivity.
Qed.

(** Witness for X9: the well-formed answer, given as an object. *)
Lemma well_formed_answer_is_read_back_witness :
  exists r,
    CaptionAnalyzer.parseAnalysisResult rejectJSON rejectNumber wellFormedAnswer
    = Normal r
    /\ AnalysisResult.score r == 8 # 10
    /\ AnalysisResult.reasons r = [JStr "surprising"]
    /\ AnalysisResult.emotions r = [JStr "joy"]
    /\ AnalysisResult.keywords r = [JStr "launch"; JStr "record"]
    /\ AnalysisResult.summary r = JStr "A record launch".
Proof.
  exact (well_formed_answer_is_read_back rejectJSON rejectNumber wellFormedAnswer
           _ (8 # 10) [JStr "surprising"] [JStr "joy"]
           [JStr "launch"; JStr "record"] "A record launch"
           eq_refl eq_refl eq_refl eq_refl eq_refl eq_refl).
Defined.

(** ** More on [EnhancedViralDetector] *)

Section FusionMoreFacts.
Import EnhancedViralDetector.

Lemma ofNat_S n : JSNumber.ofNat (S n) == JSNumber.ofNat n + 1.
Proof.
  unfold JSNumber.ofNat, Qeq, Qplus, inject_Z. cbn [Qnum Qden]. lia.
Qed.

Lemma total_bounds xs :
  Forall unitScore xs -> 0 <= total xs <= JSNumber.ofNat (length xs).
Proof.
  induction 1 as [|x xs [Hx0 Hx1] Hxs IH].
  - unfold total. simpl. split; [lra|]. vm_compute. discriminate.
  - unfold total in *. cbn [fold_right length]. rewrite ofNat_S. lra.
Qed.

Lemma mean_bounds xs : xs <> [] -> Forall unitScore xs -> unitScore (mean xs).
Proof.
  intros Hne Hxs. unfold mean, unitScore.
  destruct (total_bounds xs Hxs) as [H0 H1].
  assert (Hlen : 0 < JSNumber.ofNat (length xs)).
  { apply ofNat_pos. destruct xs; [congruence|simpl; lia]. }
  split.
  - apply Qle_shift_div_l; [exact Hlen|]. rewrite Qmult_0_l. exact H0.
  - apply Qle_shift_div_r; [exact Hlen|]. rewrite Qmult_1_l. exact H1.
Qed.

Lemma overlapping_incl A results R : In R (overlapping A results) -> In R results.
Proof. unfold overlapping. intro H. apply filter_In in H. tauto. Qed.

Lemma enhanceAudioSegment_bounded results A :
  unitScore (Segment.score A) ->
  Forall (fun R => unitScore (ScoredCaption.score R)) results ->
  unitScore (EnhancedSegment.combinedScore (enhanceAudioSegment results A)).
Proof.
  intros [Ha0 Ha1] Hresults.
  destruct (enhanceAudioSegment_fused results A) as (_ & _ & _ & _ & Hfused).
  destruct (overlapping A results) as [|R overlaps] eqn:E.
  - destruct Hfused as [Hscore _]. unfold unitScore. rewrite Hscore. split; lra.
  - destruct Hfused as [Hscore _]. unfold unitScore. rewrite Hscore.
    assert (Hmean : unitScore (mean (map ScoredCaption.score (R :: overlaps)))).
    { apply mean_bounds; [discriminate|].
      apply Forall_map. rewrite <- E. apply Forall_forall. intros R' HR'.
      rewrite Forall_forall in Hresults. apply Hresults.
      eapply overlapping_incl. exact HR'. }
    destruct Hmean as [Hm0 Hm1].
    set (m := mean _) in *. clearbody m. split; lra.
Qed.

Lemma firstMaximum_In results best : firstMaximum results best -> In best results.
Proof.
  intros (before & after & -> & _). apply in_or_app. right. left. reflexivity.
Qed.

Lemma captionLoop_length results :
  forall enhanced,
    (length (captionLoop results enhanced) <= length enhanced + length results)%nat.
Proof.
  unfold captionLoop. induction results as [|R results IH]; intro enhanced; simpl; [lia|].
  specialize (IH (captionStep enhanced R)).
  assert (Hstep : (length (captionStep enhanced R) <= S (length enhanced))%nat).
  { unfold captionStep. destruct (JSNumber.ltb _ _); [lia|].
    destruct (negb _); [rewrite length_app; simpl; lia|lia]. }
  lia.
Qed.

(** The second loop leaves no high-scoring result of positive duration
    without a segment that overlaps it. *)
Lemma captionLoop_covers results :
  forall enhanced R,
    (In R results
     \/ Exists (fun F => segmentsOverlap (fusedSpan F) (sourceSpan R) = true) enhanced) ->
    7 # 10 <= ScoredCaption.score R ->
    Caption.start (ScoredCaption.caption R)
    < Caption.start (ScoredCaption.caption R) + Caption.duration (ScoredCaption.caption R) ->
    Exists (fun F => segmentsOverlap (fusedSpan F) (sourceSpan R) = true)
           (captionLoop results enhanced).
Proof.
  unfold captionLoop.
  induction results as [|R' results IH]; intros enhanced R Hin Hscore Hduration.
  - simpl. destruct Hin as [[]|H]. exact H.
  - simpl. apply IH; [|assumption|assumption].
    destruct Hin as [[->|Hin]|Hcovered].
    + right. destruct (orphanAgainst_dec enhanced R) as [Hyes|Hno].
      * rewrite (captionStep_emit _ _ Hyes). apply Exists_app. right.
        constructor. apply segmentsOverlap_iff. simpl. split; exact Hduration.
      * rewrite (captionStep_skip _ _ Hno).
        destruct (hasOverlap enhanced (captionSegmentOf R)) eqn:Eover.
        -- unfold hasOverlap in Eover. apply existsb_exists in Eover.
           destruct Eover as (F & HF & Hover). apply Exists_exists. exists F.
           split; [exact HF|exact Hover].
        -- exfalso. apply Hno. split; [exact Hscore|].
           apply hasOverlap_false. exact Eover.
    + left. exact Hin.
    + right. unfold captionStep.
      destruct (JSNumber.ltb _ _); [exact Hcovered|].
      destruct (negb _); [|exact Hcovered].
      apply Exists_app. left. exact Hcovered.
Qed.

Lemma filter_twice {A} (f : A -> bool) l : filter f (filter f l) = filter f l.
Proof.
  induction l as [|x l IH]; simpl; [reflexivity|].
  destruct (f x) eqn:E; simpl; [rewrite E, IH; reflexivity|exact IH].
Qed.

Lemma StronglySorted_filter_keep {A} (R : A -> A -> Prop) (f : A -> bool) l :
  StronglySorted R l -> StronglySorted R (filter f l).
Proof.
  induction 1 as [|a l Hl IH Ha]; simpl; [constructor|].
  destruct (f a); [|exact IH]. constructor; [exact IH|].
  apply Forall_forall. intros x Hx. apply filter_In in Hx.
  rewrite Forall_forall in Ha. apply Ha. tauto.
Qed.

(** Insertion never moves an element across another of the same key. *)
Lemma insert_same_key {A} (key : A -> Q) (k : Q) x l :
  filter (fun y => Qeq_bool (key y) k) (JSArray.insert (JSArray.descending key) x l)
  = filter (fun y => Qeq_bool (key y) k) (x :: l).
Proof.
  induction l as [|y ys IH]; [reflexivity|].
  cbn [JSArray.insert].
  destruct (Qle_bool (JSArray.descending key x y) 0) eqn:E; [reflexivity|].
  cbn [filter] in *. rewrite IH.
  destruct (Qeq_bool (key x) k) eqn:Ex; destruct (Qeq_bool (key y) k) eqn:Ey;
    try reflexivity.
  exfalso. apply Qeq_bool_iff in Ex, Ey.
  assert (Hle : Qle_bool (JSArray.descending key x y) 0 = true).
  { apply Qle_bool_iff. unfold JSArray.descending. lra. }
  congruence.
Qed.

Lemma sort_same_key {A} (key : A -> Q) (k : Q) l :
  filter (fun y => Qeq_bool (key y) k) (JSArray.sort (JSArray.descending key) l)
  = filter (fun y => Qeq_bool (key y) k) l.
Proof.
  induction l as [|x l IH]; [reflexivity|].
  cbn [JSArray.sort]. rewrite insert_same_key. cbn [filter]. rewrite IH. reflexivity.
Qed.

End FusionMoreFacts.

(** X10: when every acoustic score and every relevance score lies between
    0 and 1, so does the combined score of every fused segment. *)
Theorem combined_scores_are_bounded audio results :
  Forall (fun A => unitScore (Segment.score A)) audio ->
  Forall (fun R => unitScore (ScoredCaption.score R)) results ->
  Forall (fun F => unitScore (EnhancedSegment.combinedScore F))
         (EnhancedViralDetector.combineAudioAndCaptionAnalysis audio results).
Proof.
  intros Haudio Hresults.
  unfold EnhancedViralDetector.combineAudioAndCaptionAnalysis.
  apply sort_Forall. rewrite enhancedBeforeSort_split. apply Forall_app. split.
  - apply Forall_map. eapply Forall_impl; [|exact Haudio].
    intros A HA. apply enhanceAudioSegment_bounded; assumption.
  - destruct (orphanSegments_facts audio results) as [Hfrom _].
    rewrite Forall_forall in *. intros F HF.
    destruct (Hfrom F HF) as (R & HR & _ & ->).
    destruct (Hresults R HR) as [H0 H1].
    unfold unitScore. simpl. split; lra.
Qed.

(** Witness for X10: scenario B. *)
Lemma combined_scores_are_bounded_witness :
  Forall (fun A => unitScore (Segment.score A)) [scenarioB_audio]
  /\ Forall (fun R => unitScore (ScoredCaption.score R)) [scenarioB_result]
  /\ Forall (fun F => unitScore (EnhancedSegment.combinedScore F))
            (EnhancedViralDetector.combineAudioAndCaptionAnalysis
               [scenarioB_audio] [scenarioB_result]).
Proof.
  assert (Ha : Forall (fun A => unitScore (Segment.score A)) [scenarioB_audio])
    by (repeat constructor; discriminate).
  assert (Hr : Forall (fun R => unitScore (ScoredCaption.score R)) [scenarioB_result])
    by (repeat constructor; discriminate).
  split; [exact Ha|]. split; [exact Hr|].
  exact (combined_scores_are_bounded [scenarioB_audio] [scenarioB_result] Ha Hr).
Defined.

(** X11: no high-scoring caption window is left uncovered: for every
    relevance result of score at least 0.7 whose source interval is not
    empty ([start < start + duration] as the code computes its end), some
    fused segment [F] of the output overlaps that interval, that is
    [F.start < start + duration] and [start < F.end]. *)
Theorem high_scoring_results_are_covered audio results R :
  In R results ->
  7 # 10 <= ScoredCaption.score R ->
  Caption.start (ScoredCaption.caption R)
  < Caption.start (ScoredCaption.caption R) + Caption.duration (ScoredCaption.caption R) ->
  Exists (fun F => overlapsFused F R)
         (EnhancedViralDetector.combineAudioAndCaptionAnalysis audio results).
Proof.
  intros Hin Hscore Hduration.
  pose proof (captionLoop_covers results
                (EnhancedViralDetector.audioLoop results audio []) R
                (or_introl Hin) Hscore Hduration) as Hcovered.
  apply Exists_exists in Hcovered. destruct Hcovered as (F & HF & Hover).
  apply Exists_exists. exists F. split.
  - unfold EnhancedViralDetector.combineAudioAndCaptionAnalysis.
    eapply Permutation_in; [apply sort_perm|exact HF].
  - apply (segmentsOverlap_halfOpen (fusedSpan F) (sourceSpan R)) in Hover.
    exact Hover.
Qed.

(** Witness for X11: the second of two overlapping orphans is not emitted,
    yet the segment of the first covers it. *)
Lemma high_scoring_results_are_covered_witness :
  Exists (fun F =>
            overlapsFused F
              (ScoredCaption.mk (AnalysisResult.mk (9 # 10) [] [] [] (JStr ""))
                                (Caption.mk 5 10 "y")))
         (EnhancedViralDetector.combineAudioAndCaptionAnalysis [] overlappingOrphans).
Proof.
  apply (high_scoring_results_are_covered [] overlappingOrphans).
  - right. left. reflexivity.
  - discriminate.
  - reflexivity.
Defined.

(** X12: [filterSegmentsByDuration] keeps exactly the order of what it is
    given, so a ranked list stays ranked; every segment it returns has a
    duration within the bounds; and filtering a second time with the same
    bounds changes nothing. *)
Theorem duration_filter_is_idempotent segments minDuration maxDuration :
  EnhancedViralDetector.filterSegmentsByDuration
    (EnhancedViralDetector.filterSegmentsByDuration segments minDuration maxDuration)
    minDuration maxDuration
  = EnhancedViralDetector.filterSegmentsByDuration segments minDuration maxDuration
  /\ Forall (fusedDurationIn minDuration maxDuration)
            (EnhancedViralDetector.filterSegmentsByDuration
               segments minDuration maxDuration)
  /\ (StronglySorted (keyGe EnhancedSegment.combinedScore) segments ->
      StronglySorted (keyGe EnhancedSegment.combinedScore)
                     (EnhancedViralDetector.filterSegmentsByDuration
                        segments minDuration maxDuration)).
Proof.
  unfold EnhancedViralDetector.filterSegmentsByDuration.
  split; [apply filter_twice|]. split.
  - apply Forall_forall. intros F HF. apply filter_In in HF.
    destruct HF as [_ HF]. cbv zeta in HF. js_order.
    split; assumption.
  - apply StronglySorted_filter_keep.
Qed.

(** X13: [getTopSegments] applied to the output of
    [combineAudioAndCaptionAnalysis] returns at most [count] segments, and
    none of them has a lower combined score than a segment it leaves out. *)
Theorem top_fused_segments_are_best audio results count :
  (length (EnhancedViralDetector.getTopSegments
             (EnhancedViralDetector.combineAudioAndCaptionAnalysis audio results) count)
   <= count)%nat
  /\ Forall (fun top =>
               Forall (fun rest => EnhancedSegment.combinedScore rest
                                   <= EnhancedSegment.combinedScore top)
                      (skipn count
                         (EnhancedViralDetector.combineAudioAndCaptionAnalysis
                            audio results)))
            (EnhancedViralDetector.getTopSegments
               (EnhancedViralDetector.combineAudioAndCaptionAnalysis audio results) count).
Proof.
  split.
  - unfold EnhancedViralDetector.getTopSegments. apply firstn_le_length.
  - apply (firstn_dominates (keyGe EnhancedSegment.combinedScore)).
    apply sort_sorted.
Qed.

(** X14: ties are broken by production order: for every value of the
    combined score, the output lists the segments of that score in the
    order in which they were produced, the acoustic ones in input order
    first and the orphans after them. *)
Theorem equal_scores_keep_production_order audio results k :
  withCombinedScore k
    (EnhancedViralDetector.combineAudioAndCaptionAnalysis audio results)
  = withCombinedScore k
      (map (EnhancedViralDetector.enhanceAudioSegment results) audio
       ++ orphanSegments audio results).
Proof.
  unfold withCombinedScore, EnhancedViralDetector.combineAudioAndCaptionAnalysis.
  rewrite sort_same_key, enhancedBeforeSort_split. reflexivity.
Qed.

(** X15: in every fused segment the caption text and the analysis are
    attached together or not at all, an attached analysis is one of the
    given relevance results, and the output has at most one segment per
    acoustic segment plus one per relevance result. *)
Theorem attachments_come_from_the_input audio results :
  Forall (fun F =>
            (EnhancedSegment.captionText F = None
             <-> EnhancedSegment.aiAnalysis F = None)
            /\ forall R, EnhancedSegment.aiAnalysis F = Some R -> In R results)
         (EnhancedViralDetector.combineAudioAndCaptionAnalysis audio results)
  /\ (length (EnhancedViralDetector.combineAudioAndCaptionAnalysis audio results)
      <= length audio + length results)%nat.
Proof.
  split.
  - unfold EnhancedViralDetector.combineAudioAndCaptionAnalysis.
    apply sort_Forall. rewrite enhancedBeforeSort_split. apply Forall_app. split.
    + apply Forall_map. apply Forall_forall. intros A _.
      destruct (enhanceAudioSegment_fused results A) as (_ & _ & _ & _ & Hfused).
      destruct (overlapping A results) as [|R0 overlaps] eqn:E.
      * destruct Hfused as (_ & Htext & Hanalysis). rewrite Htext, Hanalysis.
        split; [tauto|discriminate].
      * destruct Hfused as (_ & Htext & best & Hanalysis & Hbest).
        rewrite Htext, Hanalysis. split; [split; discriminate|].
        intros R HR. injection HR as <-.
        apply (overlapping_incl A). rewrite E. apply firstMaximum_In. exact Hbest.
    + destruct (orphanSegments_facts audio results) as [Hfrom _].
      eapply Forall_impl; [|exact Hfrom].
      intros F (R & HR & _ & ->). simpl. split; [split; discriminate|].
      intros R' HR'. injection HR' as <-. exact HR.
  - unfold EnhancedViralDetector.combineAudioAndCaptionAnalysis.
    rewrite sort_length. unfold EnhancedViralDetector.enhancedBeforeSort.
    pose proof (captionLoop_length results
                  (EnhancedViralDetector.audioLoop results audio [])) as H.
    rewrite audioLoop_map in *. simpl in *. rewrite length_map in H. exact H.
Qed.

(** X16: filtering the fused segments with bounds that every acoustic
    segment respects, such as the detector's own, never drops an
    acoustic-derived segment: only orphans can be filtered out. *)
Theorem duration_filter_keeps_acoustic_segments audio results minDuration maxDuration :
  Forall (fun A => minDuration <= Segment.end_ A - Segment.start A
                   /\ Segment.end_ A - Segment.start A <= maxDuration) audio ->
  Forall (fun A =>
            In (EnhancedViralDetector.enhanceAudioSegment results A)
               (EnhancedViralDetector.filterSegmentsByDuration
                  (EnhancedViralDetector.combineAudioAndCaptionAnalysis audio results)
                  minDuration maxDuration))
         audio.
Proof.
  intro Hrange. rewrite Forall_forall in *. intros A HA.
  unfold EnhancedViralDetector.filterSegmentsByDuration. apply filter_In. split.
  - unfold EnhancedViralDetector.combineAudioAndCaptionAnalysis.
    eapply Permutation_in; [apply sort_perm|].
    rewrite enhancedBeforeSort_split. apply in_or_app. left.
    apply in_map. exact HA.
  - destruct (Hrange A HA) as [Hlo Hhi].
    destruct (enhanceAudioSegment_fused results A) as (Hstart & Hend & _).
    cbv zeta. rewrite Hstart, Hend.
    apply andb_true_iff. split; [apply geb_ge|apply leb_le]; assumption.
Qed.

(** Witness for X16: scenario B with the default bounds of 5 and 60. *)
Lemma duration_filter_keeps_acoustic_segments_witness :
  Forall (fun A => 5 <= Segment.end_ A - Segment.start A
                   /\ Segment.end_ A - Segment.start A <= 60) [scenarioB_audio]
  /\ Forall (fun A =>
               In (EnhancedViralDetector.enhanceAudioSegment [scenarioB_result] A)
                  (EnhancedViralDetector.filterSegmentsByDuration
                     (EnhancedViralDetector.combineAudioAndCaptionAnalysis
                        [scenarioB_audio] [scenarioB_result])
                     5 60))
            [scenarioB_audio].
Proof.
  assert (H : Forall (fun A => 5 <= Segment.end_ A - Segment.start A
                              /\ Segment.end_ A - Segment.start A <= 60)
                     [scenarioB_audio])
    by (repeat constructor; discriminate).
  split; [exact H|].
  exact (duration_filter_keeps_acoustic_segments
           [scenarioB_audio] [scenarioB_result] 5 60 H).
Defined.

(** ** [VideoClipper] and the request handlers *)

Section ClipperFacts.
Variable outputPathOf : string -> string.
Variable generatedName : Segment -> string.
Variable partName : string -> nat -> string.

Lemma clipSegment_result world videoPath segment outputFilename :
  exists r,
    VideoClipper.clipSegment outputPathOf generatedName world videoPath segment
                             outputFilename = Normal r
    /\ ClipResult.segment r = segment
    /\ ClipResult.inputPath r = videoPath
    /\ ClipResult.duration r = Segment.end_ segment - Segment.start segment
    /\ ClipResult.success r = rendered world
    /\ (ClipResult.success r = true <-> ClipResult.error r = None)
    /\ (VideoClipper.existsSync world = false ->
        ClipResult.outputPath r = ""
        /\ ClipResult.error r = Some ("Video file not found: " ++ videoPath)%string).
Proof.
  unfold VideoClipper.clipSegment, rendered.
  destruct (VideoClipper.existsSync world); simpl.
  - destruct (VideoClipper.render world); simpl; eexists;
      (split; [reflexivity|]); simpl; repeat split; try reflexivity;
      try discriminate.
  - eexists. split; [reflexivity|]. simpl. repeat split; try reflexivity;
      discriminate.
Qed.

Lemma clipLoop_results world videoPath baseFilename segments :
  forall i results,
  exists clips,
    VideoClipper.clipLoop outputPathOf generatedName partName world videoPath
                          baseFilename i segments results
    = Normal (results ++ clips)
    /\ map ClipResult.segment clips = segments
    /\ Forall (fun r =>
                 ClipResult.inputPath r = videoPath
                 /\ ClipResult.duration r
                    = Segment.end_ (ClipResult.segment r)
                      - Segment.start (ClipResult.segment r)
                 /\ (ClipResult.success r = true <-> ClipResult.error r = None))
              clips
    /\ forall j r, nth_error clips j = Some r ->
                   ClipResult.success r = rendered (world (i + j)%nat).
Proof.
  induction segments as [|segment rest IH]; intros i results.
  - exists []. simpl. rewrite app_nil_r. repeat split; try constructor.
    intros j r H. destruct j; discriminate.
  - cbn [VideoClipper.clipLoop].
    destruct (clipSegment_result (world i) videoPath segment
                (if missingString baseFilename then None
                 else Some (partName (stringOr baseFilename "") (i + 1))))
      as (r & Hr & Hseg & Hpath & Hdur & Hsucc & Herr & _).
    rewrite Hr. simpl.
    destruct (IH (S i) (results ++ [r])) as (clips & Hloop & Hsegs & Hall & Hnth).
    exists (r :: clips). rewrite Hloop, <- app_assoc. split; [reflexivity|].
    split; [simpl; rewrite Hseg, Hsegs; reflexivity|]. split.
    + constructor; [|exact Hall]. rewrite Hseg. repeat split; tauto.
    + intros j r' Hj. destruct j as [|j]; simpl in Hj.
      * injection Hj as <-. rewrite Nat.add_0_r. exact Hsucc.
      * rewrite <- Nat.add_succ_comm. apply Hnth. exact Hj.
Qed.

End ClipperFacts.

(** X17: [clipMultipleSegments] never fails and returns exactly one result
    per segment, in order, each carrying its segment, the input path and
    the duration [end - start]; a clip succeeds exactly when the video
    exists and its own ffmpeg run ends, with an error message recorded
    otherwise, so one failed clip does not affect the others. *)
Theorem clips_are_one_per_segment
        (outputPathOf : string -> string) (generatedName : Segment -> string)
        (partName : string -> nat -> string)
        (world : nat -> VideoClipper.ClipWorld) (videoPath : string)
        (segments : list Segment) (baseFilename : option string) :
  exists results,
    VideoClipper.clipMultipleSegments outputPathOf generatedName partName
                                      world videoPath segments baseFilename
    = Normal results
    /\ map ClipResult.segment results = segments
    /\ Forall (fun r =>
                 ClipResult.inputPath r = videoPath
                 /\ ClipResult.duration r
                    = Segment.end_ (ClipResult.segment r)
                      - Segment.start (ClipResult.segment r)
                 /\ (ClipResult.success r = true <-> ClipResult.error r = None))
              results
    /\ forall i r, nth_error results i = Some r ->
                   ClipResult.success r = rendered (world i).
Proof.
  unfold VideoClipper.clipMultipleSegments.
  destruct (clipLoop_results outputPathOf generatedName partName world videoPath
              baseFilename segments 0 [])
    as (clips & Hloop & Hsegs & Hall & Hnth).
  exists clips. split; [exact Hloop|]. split; [exact Hsegs|]. split; [exact Hall|].
  exact Hnth.
Qed.

(** X19: for a POST request with a video path, [detect-segments] never
    answers with status 500: it answers 404 with the message that no viral
    segments were detected when the detector returns nothing, and 200 with
    the segments and their count otherwise.  A video that cannot be read is
    therefore reported as 404, like a video without viral segments. *)
Theorem detect_segments_reports_unreadable_as_not_found media req :
  Api.detectMethod req = "POST" ->
  missingString (Api.detectVideoPath req) = false ->
  (exists segments,
      ViralContentDetector.detectViralSegments defaultOptions media = Normal segments
      /\ Api.detectSegments media req
         = Normal (match segments with
                   | [] =>
                       {| Api.status := 404;
                          Api.body :=
                            Api.FailureBody "No viral segments detected in the video" |}
                   | _ :: _ =>
                       {| Api.status := 200;
                          Api.body := Api.SegmentsBody segments (length segments) |}
                   end))
  /\ (unreadable media ->
      Api.detectSegments media req
      = Normal {| Api.status := 404;
                  Api.body :=
                    Api.FailureBody "No viral segments detected in the video" |}).
Proof.
  intros Hmethod Hpath.
  assert (Hgeneral : forall segments,
             ViralContentDetector.detectViralSegments defaultOptions media
             = Normal segments ->
             Api.detectSegments media req
             = Normal (match segments with
                       | [] =>
                           {| Api.status := 404;
                              Api.body :=
                                Api.FailureBody "No viral segments detected in the video" |}
                       | _ :: _ =>
                           {| Api.status := 200;
                              Api.body := Api.SegmentsBody segments (length segments) |}
                       end)).
  { intros segments Hdetect. unfold Api.detectSegments.
    rewrite Hmethod, Hpath. simpl.
    change (ViralContentDetector.constructor
              (DetectionOptions.mkPartial None None None None)) with defaultOptions.
    rewrite Hdetect. simpl. destruct segments; reflexivity. }
  split.
  - destruct (detect_cases defaultOptions media) as [Hempty|(T & _ & Hout)].
    + exists []. split; [exact Hempty|]. exact (Hgeneral [] Hempty).
    + eexists. split; [exact Hout|]. exact (Hgeneral _ Hout).
  - intro Hbad.
    assert (Hempty : ViralContentDetector.detectViralSegments defaultOptions media
                     = Normal []).
    { unfold ViralContentDetector.detectViralSegments.
      destruct Hbad as [Hmissing|[[e He]|[e He]]].
      - rewrite Hmissing. reflexivity.
      - rewrite He. destruct (ViralContentDetector.existsSync media); reflexivity.
      - unfold ViralContentDetector.analyzeAudio, ViralContentDetector.getAudioDuration.
        rewrite He.
        destruct (ViralContentDetector.existsSync media); [|reflexivity].
        destruct (ViralContentDetector.extractAudio media); reflexivity. }
    exact (Hgeneral [] Hempty).
Qed.

(** Witness for X19: a request for a video whose file is missing. *)
Lemma detect_segments_reports_unreadable_as_not_found_witness :
  unreadable missingFile
  /\ Api.detectSegments missingFile detectRequest
     = Normal {| Api.status := 404;
                 Api.body := Api.FailureBody "No viral segments detected in the video" |}.
Proof.
  assert (H : unreadable missingFile) by (left; reflexivity).
  split; [exact H|].
  exact (proj2 (detect_segments_reports_unreadable_as_not_found
                  missingFile detectRequest eq_refl eq_refl) H).
Defined.

(** ** Keyword search *)

Section SearchFacts.
Variable toLowerCase : string -> string.

Lemma prefix_empty s : String.prefix "" s = true.
Proof. destruct s; reflexivity. Qed.

Lemma includes_empty s : CaptionSearch.includes s "" = true.
Proof. destruct s; simpl; reflexivity. Qed.

End SearchFacts.

Lemma asciiLower_idempotent c : asciiLower (asciiLower c) = asciiLower c.
Proof.
  destruct c as [[] [] [] [] [] [] [] []]; vm_compute; reflexivity.
Qed.

Lemma lowerASCII_idempotent s : lowerASCII (lowerASCII s) = lowerASCII s.
Proof.
  induction s as [|c s IH]; simpl; [reflexivity|].
  rewrite asciiLower_idempotent, IH. reflexivity.
Qed.

(** X20: [findSegmentsWithKeywords] returns nothing when there are no
    keywords, and every caption when one of the keywords lower-cases to the
    empty string; and since keywords are lower-cased before matching, with
    an idempotent [toLowerCase] it makes no difference whether they are
    given in lower case. *)
Theorem keyword_search_edge_cases (toLowerCase : string -> string) captions keywords :
  (forall s, toLowerCase (toLowerCase s) = toLowerCase s) ->
  CaptionSearch.findSegmentsWithKeywords toLowerCase captions [] = []
  /\ (Exists (fun keyword => toLowerCase keyword = "") keywords ->
      CaptionSearch.findSegmentsWithKeywords toLowerCase captions keywords = captions)
  /\ CaptionSearch.findSegmentsWithKeywords toLowerCase captions
                                            (map toLowerCase keywords)
     = CaptionSearch.findSegmentsWithKeywords toLowerCase captions keywords.
Proof.
  intro Hidem. split; [|split].
  - unfold CaptionSearch.findSegmentsWithKeywords. rewrite orb_true_r. reflexivity.
  - intro Hempty. unfold CaptionSearch.findSegmentsWithKeywords.
    destruct captions as [|c captions]; [reflexivity|].
    destruct keywords as [|k keywords]; [inversion Hempty|].
    cbn [length Nat.eqb orb].
    set (l := c :: captions). clearbody l.
    induction l as [|x l IH]; [reflexivity|].
    cbn [filter]. cbv zeta.
    assert (Hhit : existsb
                     (fun keyword =>
                        CaptionSearch.includes (toLowerCase (Caption.text x))
                                               (toLowerCase keyword))
                     (k :: keywords) = true).
    { apply existsb_exists. apply Exists_exists in Hempty.
      destruct Hempty as (keyword & Hin & Hk). exists keyword. split; [exact Hin|].
      rewrite Hk. apply includes_empty. }
    rewrite Hhit. f_equal. exact IH.
  - unfold CaptionSearch.findSegmentsWithKeywords. rewrite length_map.
    destruct ((length captions =? 0)%nat || (length keywords =? 0)%nat); [reflexivity|].
    apply filter_ext. intro c. cbv zeta.
    induction keywords as [|k keywords IH]; [reflexivity|].
    simpl. rewrite Hidem, IH. reflexivity.
Qed.

(** Witness for X20: with ASCII lower-casing, an empty keyword selects
    every caption of scenario A. *)
Lemma keyword_search_edge_cases_witness :
  (forall s, lowerASCII (lowerASCII s) = lowerASCII s)
  /\ CaptionSearch.findSegmentsWithKeywords lowerASCII scenarioA ["zebra"; ""]
     = scenarioA
  /\ CaptionSearch.findSegmentsWithKeywords lowerASCII scenarioA ["B"]
     = [Caption.mk 5 5 "b"].
Proof.
  destruct (keyword_search_edge_cases lowerASCII scenarioA ["zebra"; ""]
              lowerASCII_idempotent) as (_ & Hall & _).
  split; [exact lowerASCII_idempotent|].
  split; [|reflexivity].
  apply Hall. right. left. reflexivity.
Defined.
